(** * Key lookup over a sorted random-access range: binary_search.hpp

    A shallow embedding of the ten search templates of [binary_search.hpp]
    and the properties of their specification.

    Conventions of the embedding.
    - A range [[begin, end)] is a [list T]; an iterator is its offset from
      [begin] as a [Z] (the source computes with [std::ptrdiff_t] offsets
      obtained from [std::distance]), so [begin] is [0] and [end] is the
      length of the list.  All offsets the code computes stay within
      [-1 .. 2 * size], far from the limits of a 64-bit [ptrdiff_t] for any
      array that fits in memory, so no wrap-around is written out for them.
    - Every function runs in the monad [M]: it yields either a value or a
      [fault], together with the chronological [trace] of the element
      accesses and predicate calls it performed.
    - Two places of the header do not compile as written: the interpolated
      search hands an iterator to predicates that expect an element, and the
      adaptive search reads the undeclared name [array_size].  A compiler
      rejects the first when the template is instantiated, whatever the
      arguments of the call: the embedding checks, before anything runs,
      that the predicate objects are callable on every kind of argument the
      body hands them, and yields the fault [IllFormed] with an empty trace
      when they are not.  The second is a parameter of the embedding.
    - A [while] or [for] loop of the source is a [step] function (one test
      of the loop condition followed by one execution of the body) iterated
      by [loop] under a [fuel] bound; running out of fuel is the fault
      [OutOfFuel], so "the call returns" is a statement about enough fuel
      giving a value. *)

From Stdlib Require Import ZArith List Bool Lia.
Import ListNotations.
Local Open Scope Z_scope.

(** ** Faults, traces and the monad *)

Inductive fault : Type :=
| AssertionFailed            (* an [assert] of a debug build fired *)
| OutOfRange (offset : Z)    (* dereference outside [[begin, end)] *)
| IllFormed                  (* the instantiation is rejected: a predicate is not callable as the body calls it *)
| OutOfFuel.                 (* the loop did not exit within the fuel *)

Inductive result (A : Type) : Type :=
| Ret (a : A)
| Fault (f : fault).
Arguments Ret {A} a.
Arguments Fault {A} f.

Inductive event : Type :=
| Deref (offset : Z)   (* [*std::next(begin, offset)] *)
| Less                 (* one call of [less_than] *)
| Equal.               (* one call of [equal_to] *)

Definition trace := list event.

Definition M (A : Type) : Type := (result A * trace)%type.

Definition ret {A} (a : A) : M A := (Ret a, []).

Definition raise {A} (f : fault) : M A := (Fault f, []).

Definition emit (e : event) : M unit := (Ret tt, [e]).

Definition bind {A B} (m : M A) (k : A -> M B) : M B :=
  match m with
  | (Ret a, t) => let (r, t') := k a in (r, t ++ t')
  | (Fault f, t) => (Fault f, t)
  end.

Notation "x <- m ;; k" := (bind m (fun x => k))
  (at level 61, m at next level, right associativity).
Notation "' pat <- m ;; k" := (bind m (fun x => match x with pat => k end))
  (at level 61, pat pattern, m at next level, right associativity).
Notation "m ;;; k" := (bind m (fun _ => k))
  (at level 61, right associativity).

Definition outcome {A} (m : M A) : result A := fst m.
Definition accesses {A} (m : M A) : trace := snd m.

(** [loop fuel step s]: iterate [step] from [s]; [inl s'] continues with
    [s'], [inr r] leaves the loop with [r]. *)
Fixpoint loop {S R : Type} (fuel : nat) (step : S -> M (S + R)) (s : S) : M R :=
  match fuel with
  | O => raise OutOfFuel
  | Datatypes.S fuel' =>
      x <- step s ;;
      match x with
      | inl s' => loop fuel' step s'
      | inr r => ret r
      end
  end.

(** The caller-owned record of the adaptive search: two [size_t] fields. *)
Record adaptive_binary_search_state : Type :=
  { i : Z; balance : Z }.

(** Conversion of a 64-bit [size_t] value to [std::ptrdiff_t]
    ([bot = state.i] with [bot] declared [decltype(size)]). *)
Definition to_ptrdiff (n : Z) : Z :=
  if n <? 2 ^ 63 then n else n - 2 ^ 64.

(** The two modes of the adaptive search. *)
Inductive adaptive_mode : Type := AnchoredGallop | FullRangeFallback.

(** A predicate object as the interpolated search uses it.  The body hands
    it a dereferenced element in most calls and an iterator in two of them;
    whether each kind of call type-checks, and what it then computes, is a
    property of the callable, fixed when the template is instantiated. *)
Record predicate (T : Type) : Type :=
  { at_element : option (T -> bool);      (* callable on [*it] *)
    at_iterator : option (Z -> bool) }.   (* callable on an iterator *)
Arguments at_element {T} p.
Arguments at_iterator {T} p.

(** ** The range and its primitive operations *)

Section Range.

Variable T : Type.
(** [NDEBUG]: [true] for a release build, where [assert] expands to nothing. *)
Variable NDEBUG : bool.
Variable array : list T.

Definition size : Z := Z.of_nat (length array).   (* std::distance(begin, end) *)
Definition begin_ : Z := 0.
Definition end_ : Z := size.

(** [assert(c)] of <cassert>. *)
Definition assert (c : bool) : M unit :=
  if NDEBUG then ret tt
  else if c then ret tt else raise AssertionFailed.

(** [*std::next(begin, i)]: defined for [0 <= i < size] only.  The access
    is recorded in the trace whether or not it is inside the range. *)
Definition deref (i : Z) : M T :=
  if (0 <=? i) && (i <? size) then
    match nth_error array (Z.to_nat i) with
    | Some x => (Ret x, [Deref i])
    | None => (Fault (OutOfRange i), [Deref i])
    end
  else (Fault (OutOfRange i), [Deref i]).

(** Calls of the two predicate objects handed to a base form. *)
Definition call_less (less_than : T -> bool) (x : T) : M bool :=
  emit Less ;;; ret (less_than x).
Definition call_equal (equal_to : T -> bool) (x : T) : M bool :=
  emit Equal ;;; ret (equal_to x).

(** ** The base forms (explicit predicates) *)

Section Base.

Variable less_than : T -> bool.
Variable equal_to : T -> bool.

(** *** linear_search_base *)

(* for (Iterator i = std::prev(end); i >= begin; --i)
     if (equal_to( *i )) return i;
   return end; *)
Definition linear_step (i : Z) : M (Z + Z) :=
  if i >=? begin_ then
    x <- deref i ;;
    b <- call_equal equal_to x ;;
    if b then ret (inr i) else ret (inl (i - 1))
  else ret (inr end_).

Definition linear_search_base (fuel : nat) : M Z :=
  if begin_ =? end_ then ret end_
  else
    assert (begin_ <? end_) ;;;
    loop fuel linear_step (end_ - 1).

(** *** breaking_linear_search_base *)

(* while (i > begin && less_than( *i )) --i; *)
Definition breaking_step (i : Z) : M (Z + Z) :=
  if i >? begin_ then
    x <- deref i ;;
    b <- call_less less_than x ;;
    if b then ret (inl (i - 1)) else ret (inr i)
  else ret (inr i).

Definition breaking_linear_search_base (fuel : nat) : M Z :=
  if begin_ =? end_ then ret end_
  else
    assert (begin_ <? end_) ;;;
    i <- loop fuel breaking_step (end_ - 1) ;;
    x <- deref i ;;
    b <- call_equal equal_to x ;;
    ret (if b then i else end_).

(** *** standard_binary_search_base *)

(* while (low < high) {
     Iterator mid = std::next(low, std::distance(low, high) / 2);
     if (less_than( *mid )) high = std::prev(mid); else low = mid; } *)
Definition standard_step (s : Z * Z) : M (Z * Z + Z * Z) :=
  let '(low, high) := s in
  if low <? high then
    let mid := low + Z.quot (high - low) 2 in
    x <- deref mid ;;
    b <- call_less less_than x ;;
    if b then ret (inl (low, mid - 1)) else ret (inl (mid, high))
  else ret (inr (low, high)).

Definition standard_binary_search_base (fuel : nat) : M Z :=
  if begin_ =? end_ then ret end_
  else
    assert (begin_ <? end_) ;;;
    '(low, high) <- loop fuel standard_step (begin_, end_ - 1) ;;
    x <- deref high ;;
    b <- call_equal equal_to x ;;
    ret (if b then high else end_).

(** *** boundless_binary_search_base *)

(* while (mid > 1) {
     if (!less_than( *std::next(begin, bot + mid / 2) )) bot += mid++ / 2;
     mid /= 2; } *)
Definition boundless_step (s : Z * Z) : M (Z * Z + Z * Z) :=
  let '(bot, mid) := s in
  if mid >? 1 then
    x <- deref (bot + Z.quot mid 2) ;;
    b <- call_less less_than x ;;
    let '(bot, mid) :=
      if negb b then (bot + Z.quot mid 2, mid + 1) else (bot, mid) in
    ret (inl (bot, Z.quot mid 2))
  else ret (inr (bot, mid)).

Definition boundless_binary_search_base (fuel : nat) : M Z :=
  if begin_ =? end_ then ret end_
  else
    assert (begin_ <? end_) ;;;
    '(bot, _) <- loop fuel boundless_step (0, size) ;;
    x <- deref bot ;;
    b <- call_equal equal_to x ;;
    ret (if b then bot else end_).

(** *** doubletapped_binary_search_base *)

(* while (mid > 2) { ... same body as the boundless loop ... } *)
Definition doubletapped_step (s : Z * Z) : M (Z * Z + Z * Z) :=
  let '(bot, mid) := s in
  if mid >? 2 then
    x <- deref (bot + Z.quot mid 2) ;;
    b <- call_less less_than x ;;
    let '(bot, mid) :=
      if negb b then (bot + Z.quot mid 2, mid + 1) else (bot, mid) in
    ret (inl (bot, Z.quot mid 2))
  else ret (inr (bot, mid)).

(* while (n--) { target = std::next(begin, bot + n);
                 if (equal_to( *target )) return target; }
   return end;
   The counter is tested, then decremented, then the body runs. *)
Definition tap_step (bot : Z) (n : Z) : M (Z + Z) :=
  if negb (n =? 0) then
    let n := n - 1 in
    x <- deref (bot + n) ;;
    b <- call_equal equal_to x ;;
    if b then ret (inr (bot + n)) else ret (inl n)
  else ret (inr end_).

(* No [begin == end] test precedes the assertion in this variant. *)
Definition doubletapped_binary_search_base (fuel : nat) : M Z :=
  assert (begin_ <? end_) ;;;
  '(bot, mid) <- loop fuel doubletapped_step (0, size) ;;
  loop fuel (tap_step bot) mid.

(** *** monobound_binary_search_base *)

(* while (high > second) {
     const auto k = std::distance(begin, high) / 2;
     if (!less_than( *std::next(begin, k) )) low += k;
     high -= k; } *)
Definition monobound_step (s : Z * Z) : M (Z * Z + Z * Z) :=
  let '(low, high) := s in
  let second := begin_ + 1 in
  if high >? second then
    let k := Z.quot (high - begin_) 2 in
    x <- deref (begin_ + k) ;;
    b <- call_less less_than x ;;
    let low := if negb b then low + k else low in
    ret (inl (low, high - k))
  else ret (inr (low, high)).

Definition monobound_binary_search_base (fuel : nat) : M Z :=
  if begin_ =? end_ then ret end_
  else
    assert (begin_ <? end_) ;;;
    '(low, _) <- loop fuel monobound_step (begin_, end_) ;;
    x <- deref low ;;
    b <- call_equal equal_to x ;;
    ret (if b then low else end_).

(** *** tripletapped_binary_search_base *)

(* while (top > 3) {
     auto mid = top / 2;
     if (!less_than( *std::next(begin, bot + mid) )) bot += mid;
     top -= mid; }
   The same loop narrows the window of the quaternary search. *)
Definition narrow_step (s : Z * Z) : M (Z * Z + Z * Z) :=
  let '(bot, top) := s in
  if top >? 3 then
    let mid := Z.quot top 2 in
    x <- deref (bot + mid) ;;
    b <- call_less less_than x ;;
    let bot := if negb b then bot + mid else bot in
    ret (inl (bot, top - mid))
  else ret (inr (bot, top)).

(* while (mid--) { Iterator target = std::next(begin, bot + top);
                   if (equal_to( *target )) return target; }
   return end;
   [mid] is the function-scope variable, not the one of the loop above. *)
Definition tripletapped_tap_step (bot top : Z) (mid : Z) : M (Z + Z) :=
  if negb (mid =? 0) then
    let mid := mid - 1 in
    x <- deref (bot + top) ;;
    b <- call_equal equal_to x ;;
    if b then ret (inr (bot + top)) else ret (inl mid)
  else ret (inr end_).

Definition tripletapped_binary_search_base (fuel : nat) : M Z :=
  if begin_ =? end_ then ret end_
  else
    assert (begin_ <? end_) ;;;
    let top := size in
    let bot := 0 in
    let mid := 0 in
    '(bot, top) <- loop fuel narrow_step (bot, top) ;;
    loop fuel (tripletapped_tap_step bot top) mid.

(** *** monobound_quaternary_search_base *)

(* while (top >= 65536) {
     auto mid = top / 4;
     top -= mid * 3;
     if (less_than( *std::next(begin, bot + mid * 2) )) {
       if (!less_than( *std::next(begin, bot + mid) )) bot += mid;
     } else {
       bot += mid * 2;
       if (!less_than( *std::next(begin, bot + mid) )) bot += mid;
     } } *)
Definition quaternary_step (s : Z * Z) : M (Z * Z + Z * Z) :=
  let '(bot, top) := s in
  if top >=? 65536 then
    let mid := Z.quot top 4 in
    let top := top - mid * 3 in
    x <- deref (bot + mid * 2) ;;
    b <- call_less less_than x ;;
    if b then
      y <- deref (bot + mid) ;;
      c <- call_less less_than y ;;
      ret (inl (if negb c then bot + mid else bot, top))
    else
      let bot := bot + mid * 2 in
      y <- deref (bot + mid) ;;
      c <- call_less less_than y ;;
      ret (inl (if negb c then bot + mid else bot, top))
  else ret (inr (bot, top)).

Definition monobound_quaternary_search_base (fuel : nat) : M Z :=
  if begin_ =? end_ then ret end_
  else
    assert (begin_ <? end_) ;;;
    '(bot, top) <- loop fuel quaternary_step (0, size) ;;
    '(bot, top) <- loop fuel narrow_step (bot, top) ;;
    loop fuel (tap_step bot) top.

End Base.

(** ** The keyed forms: the predicates capture the key *)

Section Keyed.

Variable K : Type.
Variable less_than : K -> T -> bool.
Variable equal_to : K -> T -> bool.

Definition linear_search (key : K) :=
  linear_search_base (fun right => equal_to key right).

Definition breaking_linear_search (key : K) :=
  breaking_linear_search_base
    (fun right => less_than key right) (fun right => equal_to key right).

Definition standard_binary_search (key : K) :=
  standard_binary_search_base
    (fun right => less_than key right) (fun right => equal_to key right).

Definition boundless_binary_search (key : K) :=
  boundless_binary_search_base
    (fun right => less_than key right) (fun right => equal_to key right).

Definition doubletapped_binary_search (key : K) :=
  doubletapped_binary_search_base
    (fun right => less_than key right) (fun right => equal_to key right).

Definition monobound_binary_search (key : K) :=
  monobound_binary_search_base
    (fun right => less_than key right) (fun right => equal_to key right).

Definition tripletapped_binary_search (key : K) :=
  tripletapped_binary_search_base
    (fun right => less_than key right) (fun right => equal_to key right).

Definition monobound_quaternary_search (key : K) :=
  monobound_quaternary_search_base
    (fun right => less_than key right) (fun right => equal_to key right).

End Keyed.

(** ** monobound_interpolated_search_base *)

Section Interpolated.

Variable K : Type.

(** The estimate [bot * (real_type)(key - *min) / ( *max - *min )]
    converted back to the index type.  It is a floating-point
    computation on the key and element types; the embedding keeps it
    abstract, so every statement below holds whatever it yields. *)
Variable interpolate : Z -> K -> T -> T -> Z.

(** The body of the function, for predicate objects callable on elements
    ([less_e], [equal_e]) and on iterators ([less_i], [equal_i]). *)
Section InterpolatedBody.

Variable less_e : T -> bool.
Variable less_i : Z -> bool.
Variable equal_e : T -> bool.
Variable equal_i : Z -> bool.

(** Calls of the predicate objects on an iterator. *)
Definition call_less_iterator (it : Z) : M bool :=
  emit Less ;;; ret (less_i it).
Definition call_equal_iterator (it : Z) : M bool :=
  emit Equal ;;; ret (equal_i it).

(* while (true) {
     if (bot + top >= size) { top = size - bot; break; }
     bot += top;
     if (less_than( *std::next(begin, bot) )) { bot -= top; break; }
     top *= 2; } *)
Definition interpolated_up_step (s : Z * Z) : M (Z * Z + Z * Z) :=
  let '(bot, top) := s in
  if bot + top >=? size then ret (inr (bot, size - bot))
  else
    let bot := bot + top in
    x <- deref bot ;;
    b <- call_less less_e x ;;
    if b then ret (inr (bot - top, top)) else ret (inl (bot, top * 2)).

(* while (true) {
     if (bot < top) { top = bot; bot = 0; break; }
     bot -= top;
     if (less_than( *std::next(begin, bot) )) break;
     top *= 2; } *)
Definition interpolated_down_step (s : Z * Z) : M (Z * Z + Z * Z) :=
  let '(bot, top) := s in
  if bot <? top then ret (inr (0, bot))
  else
    let bot := bot - top in
    x <- deref bot ;;
    b <- call_less less_e x ;;
    if b then ret (inr (bot, top)) else ret (inl (bot, top * 2)).

(* while (top > 3) { ... } as in the tripletapped search *)
Definition interpolated_narrow_step (s : Z * Z) : M (Z * Z + Z * Z) :=
  let '(bot, top) := s in
  if top >? 3 then
    let mid := Z.quot top 2 in
    x <- deref (bot + mid) ;;
    b <- call_less less_e x ;;
    let bot := if negb b then bot + mid else bot in
    ret (inl (bot, top - mid))
  else ret (inr (bot, top)).

(* while (top--) { ... } as in the quaternary search *)
Definition interpolated_tap_step (bot : Z) (top : Z) : M (Z + Z) :=
  if negb (top =? 0) then
    let top := top - 1 in
    x <- deref (bot + top) ;;
    b <- call_equal equal_e x ;;
    if b then ret (inr (bot + top)) else ret (inl top)
  else ret (inr end_).

Definition monobound_interpolated_search_body (key : K) (fuel : nat) : M Z :=
  if begin_ =? end_ then ret end_
  else
    assert (begin_ <? end_) ;;;
    x0 <- deref begin_ ;;
    b0 <- call_less less_e x0 ;;                (* less_than( *begin ) *)
    if b0 then ret end_
    else
      let bot := size - 1 in
      let max := begin_ + bot in
      xmax <- deref max ;;
      b1 <- call_less less_e xmax ;;            (* less_than( *max ) *)
      if negb b1 then
        b <- call_equal_iterator max ;;         (* equal_to(max) *)
        ret (if b then max else end_)
      else
        let min := begin_ in
        vmin <- deref min ;;
        vmax <- deref max ;;
        _ <- deref min ;;
        let bot := interpolate bot key vmin vmax in
        let top := 64 in                        (* auto top = 64: an int *)
        b2 <- call_less_iterator (begin_ + bot) ;; (* less_than(std::next(begin, bot)) *)
        '(bot, top) <-
          (if negb b2 then loop fuel interpolated_up_step (bot, top)
           else loop fuel interpolated_down_step (bot, top)) ;;
        '(bot, top) <- loop fuel interpolated_narrow_step (bot, top) ;;
        loop fuel (interpolated_tap_step bot) top.

End InterpolatedBody.

(** The function template, instantiated at the predicate objects
    [less_than] and [equal_to]: the body applies each of them both to
    elements and to iterators, so the instantiation exists only when both
    are callable on both; otherwise the call is rejected before it runs. *)
Definition monobound_interpolated_search_base (less_than equal_to : predicate T)
  (key : K) (fuel : nat) : M Z :=
  match at_element less_than, at_iterator less_than,
        at_element equal_to, at_iterator equal_to with
  | Some less_e, Some less_i, Some equal_e, Some equal_i =>
      monobound_interpolated_search_body less_e less_i equal_e equal_i key fuel
  | _, _, _, _ => raise IllFormed
  end.

End Interpolated.

(** The lambdas of the keyed and default forms, [[&](auto& right) { return
    less_than(key, right); }] and the like: callable on a dereferenced
    element; not callable on an iterator ([auto&] does not bind the
    temporary [std::next(begin, bot)], and the body would compare the key
    with an iterator). *)
Definition on_element {K} (p : K -> T -> bool) (key : K) : predicate T :=
  {| at_element := Some (p key); at_iterator := None |}.

Definition monobound_interpolated_search {K}
  (interpolate : Z -> K -> T -> T -> Z)
  (less_than equal_to : K -> T -> bool) (key : K) :=
  monobound_interpolated_search_base K interpolate
    (on_element less_than key) (on_element equal_to key) key.

(** ** adaptive_binary_search_base *)

Section Adaptive.

Variable K : Type.

(** The fallback branch reads [array_size], a name the header never
    declares; its value is a parameter of the embedding. *)
Variable array_size : Z.

Variable less_than : T -> bool.
Variable equal_to : T -> bool.

(* state.balance < 32 && size > 64 *)
Definition adaptive_select (state : adaptive_binary_search_state) : adaptive_mode :=
  if (balance state <? 32) && (size >? 64) then AnchoredGallop
  else FullRangeFallback.

(* while (true) {
     if (bot + top >= size) { top = size - bot; break; }
     bot += top;
     if (less_than( *std::next(begin, bot) )) { bot -= top; break; }
     top *= 2; } *)
Definition adaptive_up_step (s : Z * Z) : M (Z * Z + Z * Z) :=
  let '(bot, top) := s in
  if bot + top >=? size then ret (inr (bot, size - bot))
  else
    let bot := bot + top in
    x <- deref bot ;;
    b <- call_less less_than x ;;
    if b then ret (inr (bot - top, top)) else ret (inl (bot, top * 2)).

(* while (true) {
     if (bot < top) { top = bot; bot = 0; break; }
     bot -= top;
     if (!less_than( *std::next(begin, bot) )) break;
     top *= 2; } *)
Definition adaptive_down_step (s : Z * Z) : M (Z * Z + Z * Z) :=
  let '(bot, top) := s in
  if bot <? top then ret (inr (0, bot))
  else
    let bot := bot - top in
    x <- deref bot ;;
    b <- call_less less_than x ;;
    if negb b then ret (inr (bot, top)) else ret (inl (bot, top * 2)).

(* while (top != 0)
     if (equal_to( *std::next(begin, bot + --top) ))
       return std::next(begin, bot + top);
   return end; *)
Definition adaptive_tap_step (bot : Z) (top : Z) : M (Z + Z) :=
  if negb (top =? 0) then
    let top := top - 1 in
    x <- deref (bot + top) ;;
    b <- call_equal equal_to x ;;
    if b then ret (inr (bot + top)) else ret (inl top)
  else ret (inr end_).

(** The state is received by reference; the pair returned is the
    iterator and the record as the call leaves it. *)
Definition adaptive_binary_search_base (key : K)
  (state : adaptive_binary_search_state) (fuel : nat)
  : M (Z * adaptive_binary_search_state) :=
  if begin_ =? end_ then ret (end_, state)
  else
    assert (begin_ <? end_) ;;;
    '(bot, top) <-
      match adaptive_select state with
      | AnchoredGallop =>
          let bot := to_ptrdiff (i state) in
          let top := 32 in
          x <- deref bot ;;
          b <- call_less less_than x ;;
          if negb b then loop fuel adaptive_up_step (bot, top)
          else loop fuel adaptive_down_step (bot, top)
      | FullRangeFallback => ret (0, array_size)
      end ;;
    r <- loop fuel (adaptive_tap_step bot) top ;;
    ret (r, state).

End Adaptive.

Definition adaptive_binary_search {K} (array_size : Z)
  (less_than equal_to : K -> T -> bool) (key : K) :=
  adaptive_binary_search_base K array_size
    (fun right => less_than key right) (fun right => equal_to key right) key.

End Range.

Arguments size {T} array.
Arguments end_ {T} array.
Arguments deref {T} array i.
Arguments linear_search_base {T} NDEBUG array equal_to fuel.
Arguments breaking_linear_search_base {T} NDEBUG array less_than equal_to fuel.
Arguments standard_binary_search_base {T} NDEBUG array less_than equal_to fuel.
Arguments boundless_binary_search_base {T} NDEBUG array less_than equal_to fuel.
Arguments doubletapped_binary_search_base {T} NDEBUG array less_than equal_to fuel.
Arguments monobound_binary_search_base {T} NDEBUG array less_than equal_to fuel.
Arguments tripletapped_binary_search_base {T} NDEBUG array less_than equal_to fuel.
Arguments monobound_quaternary_search_base {T} NDEBUG array less_than equal_to fuel.
Arguments linear_search {T} NDEBUG array {K} equal_to key.
Arguments breaking_linear_search {T} NDEBUG array {K} less_than equal_to key.
Arguments standard_binary_search {T} NDEBUG array {K} less_than equal_to key.
Arguments boundless_binary_search {T} NDEBUG array {K} less_than equal_to key.
Arguments doubletapped_binary_search {T} NDEBUG array {K} less_than equal_to key.
Arguments monobound_binary_search {T} NDEBUG array {K} less_than equal_to key.
Arguments tripletapped_binary_search {T} NDEBUG array {K} less_than equal_to key.
Arguments monobound_quaternary_search {T} NDEBUG array {K} less_than equal_to key.
Arguments monobound_interpolated_search_base {T} NDEBUG array {K} interpolate less_than equal_to key fuel.
Arguments monobound_interpolated_search {T} NDEBUG array {K} interpolate less_than equal_to key.
Arguments adaptive_binary_search_base {T} NDEBUG array {K} array_size less_than equal_to key state fuel.
Arguments adaptive_binary_search {T} NDEBUG array {K} array_size less_than equal_to key.
Arguments adaptive_select {T} array state.
Arguments on_element {T K} p key.
Arguments monobound_interpolated_search_body {T} NDEBUG array {K} interpolate less_e less_i equal_e equal_i key fuel.

(** ** The default forms, on [int] elements: natural [<], [>=], [==] *)

Section Default.

Variable NDEBUG : bool.
Variable array : list Z.
Variable key : Z.

Definition linear_search_default :=
  linear_search_base NDEBUG array (fun right => right =? key).

Definition breaking_linear_search_default :=
  breaking_linear_search_base NDEBUG array
    (fun right => key >=? right) (fun right => key =? right).

Definition standard_binary_search_default :=
  standard_binary_search_base NDEBUG array
    (fun right => key <? right) (fun right => key =? right).

Definition boundless_binary_search_default :=
  boundless_binary_search_base NDEBUG array
    (fun right => key >=? right) (fun right => key =? right).

Definition doubletapped_binary_search_default :=
  doubletapped_binary_search_base NDEBUG array
    (fun right => key >=? right) (fun right => key =? right).

Definition monobound_binary_search_default :=
  monobound_binary_search_base NDEBUG array
    (fun right => key <? right) (fun right => key =? right).

Definition tripletapped_binary_search_default :=
  tripletapped_binary_search_base NDEBUG array
    (fun right => key <? right) (fun right => key =? right).

Definition monobound_quaternary_search_default :=
  monobound_quaternary_search_base NDEBUG array
    (fun right => key <? right) (fun right => key =? right).

Definition monobound_interpolated_search_default
  (interpolate : Z -> Z -> Z -> Z -> Z) :=
  monobound_interpolated_search_base NDEBUG array interpolate
    (on_element Z.ltb key) (on_element Z.eqb key) key.

Definition adaptive_binary_search_default (array_size : Z) :=
  adaptive_binary_search_base NDEBUG array array_size
    (fun right => key <? right) (fun right => key =? right) key.

End Default.

(** ** Specification vocabulary *)

(** An access recorded in a trace lies inside a range of [n] elements. *)
Definition in_bounds (n : Z) (e : event) : Prop :=
  match e with
  | Deref o => 0 <= o < n
  | Less | Equal => True
  end.

(** [returns n m Q]: the computation [m] yields a value (no fault of any
    kind) that satisfies [Q], and every element access it performed is at
    an offset in [[0, n)]. *)
Definition returns {A} (n : Z) (m : M A) (Q : A -> Prop) : Prop :=
  (exists a, outcome m = Ret a /\ Q a) /\ Forall (in_bounds n) (accesses m).

(** The element of [array] at offset [j]. *)
Definition at_offset {T} (array : list T) (j : Z) (x : T) : Prop :=
  0 <= j /\ nth_error array (Z.to_nat j) = Some x.

(** Ascending order of an [int] array. *)
Fixpoint is_sorted (l : list Z) : bool :=
  match l with
  | x :: (y :: _) as rest => (x <=? y) && is_sorted rest
  | _ => true
  end.

(** The iterator [it] answers the lookup of [key] in [array]: it points at
    an element equal to [key] when there is one, and is [end] otherwise. *)
Definition answers (array : list Z) (key it : Z) : Prop :=
  (In key array -> at_offset array it key) /\
  (~ In key array -> it = end_ array).

(** Successive adaptive searches on one state record: the record a call
    leaves is the one the next call receives.  Each entry pairs the mode the
    call selected with its result. *)
Fixpoint adaptive_searches (NDEBUG : bool) (array : list Z) (array_size : Z)
  (state : adaptive_binary_search_state) (keys : list Z) (fuel : nat)
  : list (adaptive_mode * M (Z * adaptive_binary_search_state)) :=
  match keys with
  | [] => []
  | key :: rest =>
      let m := adaptive_binary_search_default NDEBUG array key array_size state fuel in
      (adaptive_select array state, m) ::
      match outcome m with
      | Ret (_, state') => adaptive_searches NDEBUG array array_size state' rest fuel
      | Fault _ => []
      end
  end.

(** The window [[bot, bot + top)] lies inside the range and brackets the
    key: when the key occurs in the array, it occurs inside the window. *)
Definition brackets (array : list Z) (key : Z) (w : Z * Z) : Prop :=
  let '(bot, top) := w in
  0 <= bot /\ 0 <= top /\ bot + top <= size array /\
  (In key array -> exists j, bot <= j < bot + top /\ at_offset array j key).

(** What the locality scenario asks of one adaptive call: the anchored
    gallop was selected, the call returned an iterator that answers the
    lookup, and the balance it leaves is below the threshold [32]. *)
Definition anchored_hit (array : list Z) (key : Z)
  (call : adaptive_mode * M (Z * adaptive_binary_search_state)) : Prop :=
  fst call = AnchoredGallop /\
  exists it state',
    outcome (snd call) = Ret (it, state') /\
    answers array key it /\ balance state' < 32.

(** The keys of the locality scenario: 100, 101, ..., 110, then 900. *)
Definition locality_keys : list Z :=
  [100; 101; 102; 103; 104; 105; 106; 107; 108; 109; 110; 900].

(** A call changed the record: some field differs. *)
Definition mutated (before after : adaptive_binary_search_state) : Prop :=
  i after <> i before \/ balance after <> balance before.

(** [it] is the highest offset whose element satisfies [p], or [end] when
    no element does. *)
Definition highest_match {T} (array : list T) (p : T -> bool) (it : Z) : Prop :=
  (exists x, at_offset array it x /\ p x = true /\
             forall j y, it < j -> at_offset array j y -> p y = false) \/
  (it = end_ array /\ forall j y, at_offset array j y -> p y = false).

(** [it] is the highest offset below [bound] whose element satisfies [p],
    or [end] when no element below [bound] does. *)
Definition highest_match_below {T} (array : list T) (p : T -> bool)
  (bound it : Z) : Prop :=
  (exists x, it < bound /\ at_offset array it x /\ p x = true /\
             forall j y, it < j < bound -> at_offset array j y -> p y = false) \/
  (it = end_ array /\
   forall j y, j < bound -> at_offset array j y -> p y = false).

(** Number of [less_than] calls, and of [equal_to] calls, in a trace. *)
Fixpoint less_calls (t : trace) : Z :=
  match t with
  | [] => 0
  | Less :: t' => 1 + less_calls t'
  | _ :: t' => less_calls t'
  end.

Fixpoint equal_calls (t : trace) : Z :=
  match t with
  | [] => 0
  | Equal :: t' => 1 + equal_calls t'
  | _ :: t' => equal_calls t'
  end.

(** [ensures m P]: whenever [m] yields a value, the value satisfies [P]
    (nothing is said when [m] faults or runs out of fuel). *)
Definition ensures {A} (m : M A) (P : A -> Prop) : Prop :=
  forall a, outcome m = Ret a -> P a.

(** [bounded c m P b]: the trace of [m], however [m] ends, counts at most
    [b] under the counter [c]; and [ensures m P]. *)
Definition bounded {A} (c : trace -> Z) (m : M A) (P : A -> Prop) (b : Z) : Prop :=
  c (accesses m) <= b /\ ensures m P.

(** [returns_or_spins n m Q]: the computation [m] never leaves a range of
    [n] elements (every access it performs is at an offset in [[0, n)], and
    it ends in no fault), and it either yields a value that satisfies [Q]
    or is still running when the fuel ends. *)
Definition returns_or_spins {A} (n : Z) (m : M A) (Q : A -> Prop) : Prop :=
  (outcome m = Fault OutOfFuel \/ exists a, outcome m = Ret a /\ Q a) /\
  Forall (in_bounds n) (accesses m).

(** The arrays of the worked examples. *)
Definition odds : list Z := [1; 3; 5; 7; 9].
Definition iota (len : nat) : list Z := map Z.of_nat (seq 0 len).
Definition zero_state : adaptive_binary_search_state := {| i := 0; balance := 0 |}.

(** ** Reasoning rules for the monad *)

(** Linear arithmetic with the truncating divisions of the index type. *)
Ltac divlia := Z.to_euclidean_division_equations; lia.

Section Rules.

Context {T : Type}.
Variable NDEBUG : bool.
Variable array : list T.

Local Abbreviation n := (size array).

Lemma returns_ret {A} (a : A) (Q : A -> Prop) :
  Q a -> returns n (ret a) Q.
Proof.
  intros Ha. split; [exists a; split; [reflexivity | exact Ha] | constructor].
Qed.

Lemma returns_bind {A B} (m : M A) (k : A -> M B)
  (P : A -> Prop) (Q : B -> Prop) :
  returns n m P ->
  (forall a, P a -> returns n (k a) Q) ->
  returns n (bind m k) Q.
Proof.
  intros [[a [Hm Pa]] Htr] Hk.
  destruct m as [r t]; simpl in Hm, Htr; subst r.
  specialize (Hk a Pa). destruct Hk as [[b [Hb Qb]] Htr'].
  unfold bind. destruct (k a) as [r' t']; simpl in *; subst r'.
  split; [exists b; auto | apply Forall_app; auto].
Qed.

Lemma returns_assert (c : bool) :
  c = true -> returns n (assert NDEBUG c) (fun _ => True).
Proof.
  intros ->. unfold assert. destruct NDEBUG; apply returns_ret; exact I.
Qed.

Lemma returns_deref (j : Z) :
  0 <= j < n -> returns n (deref array j) (at_offset array j).
Proof.
  intros Hj. unfold deref, at_offset.
  replace ((0 <=? j) && (j <? n)) with true
    by (symmetry; apply andb_true_iff; split; [apply Z.leb_le | apply Z.ltb_lt]; lia).
  destruct (nth_error array (Z.to_nat j)) as [x|] eqn:Hx.
  - split; [exists x; simpl; intuition lia | simpl; repeat constructor; lia].
  - apply nth_error_None in Hx. unfold size in Hj. lia.
Qed.

Lemma returns_call_less (less_than : T -> bool) (x : T) :
  returns n (call_less T less_than x) (fun b => b = less_than x).
Proof.
  split; [exists (less_than x); auto | repeat constructor].
Qed.

Lemma returns_call_equal (equal_to : T -> bool) (x : T) :
  returns n (call_equal T equal_to x) (fun b => b = equal_to x).
Proof.
  split; [exists (equal_to x); auto | repeat constructor].
Qed.

(** The loop rule: an invariant kept by every continuing iteration, a
    measure that each of them decreases, and fuel above the measure. *)
Lemma returns_loop {S R} (step : S -> M (S + R))
  (Inv : S -> Prop) (mu : S -> nat) (Q : R -> Prop) :
  (forall s, Inv s ->
     returns n (step s)
       (fun x => match x with
                 | inl s' => Inv s' /\ (mu s' < mu s)%nat
                 | inr r => Q r
                 end)) ->
  forall fuel s, Inv s -> (mu s < fuel)%nat -> returns n (loop fuel step s) Q.
Proof.
  intros Hstep fuel. induction fuel as [|fuel IH]; intros s Hs Hfuel; [lia|].
  simpl. eapply returns_bind; [apply Hstep; exact Hs|].
  intros [s'|r] Hx; [apply IH; [tauto | lia] | apply returns_ret; exact Hx].
Qed.

End Rules.

Lemma returns_weaken {A} (n : Z) (m : M A) (P Q : A -> Prop) :
  returns n m P -> (forall a, P a -> Q a) -> returns n m Q.
Proof.
  intros [[a [Hm Pa]] Htr] HPQ. split; [exists a; auto | exact Htr].
Qed.

(** ** Memory safety and termination of the five windowed searches *)

(** Symbolic execution of one statement of a loop body under [returns]. *)
Ltac exec_deref x Hx :=
  eapply returns_bind; [apply returns_deref | intros x Hx].
Ltac exec_less :=
  eapply returns_bind; [apply returns_call_less | intros ? ->].
Ltac exec_equal :=
  eapply returns_bind; [apply returns_call_equal | intros ? ->].
Ltac exec_assert :=
  eapply returns_bind; [apply returns_assert | intros ? _].

(** The tail loop of the tripletapped search runs on the function-scope
    [mid], which is still [0]: it performs no iteration. *)
Lemma tripletapped_tap_none {T} (array : list T) (equal_to : T -> bool)
  (bot top : Z) (fuel : nat) :
  (0 < fuel)%nat ->
  loop fuel (tripletapped_tap_step T array equal_to bot top) 0 = ret (end_ array).
Proof.
  intros Hfuel. destruct fuel as [|fuel']; [lia | reflexivity].
Qed.

Section Safety.

Context {T : Type}.
Variable NDEBUG : bool.
Variable array : list T.
Variable less_than : T -> bool.

Local Abbreviation n := (size array).

Lemma boundless_loop_safe (fuel : nat) :
  0 < n -> (Z.to_nat n < fuel)%nat ->
  returns n (loop fuel (boundless_step T array less_than) (0, n))
    (fun s => 0 <= fst s < n).
Proof.
  intros Hn Hfuel.
  apply returns_loop with
    (Inv := fun s => 0 <= fst s /\ 1 <= snd s /\ fst s + snd s <= n)
    (mu := fun s => Z.to_nat (snd s)); cbn [fst snd]; try lia.
  intros [bot mid] (Hbot & Hmid & Hsum); cbn [fst snd] in *.
  unfold boundless_step. destruct (Z.gtb_spec mid 1).
  - exec_deref x Hx; [divlia|]. exec_less.
    destruct (less_than x); simpl; apply returns_ret; cbn [fst snd]; divlia.
  - apply returns_ret; cbn [fst snd]; lia.
Qed.

Lemma doubletapped_loop_safe (fuel : nat) :
  0 < n -> (Z.to_nat n < fuel)%nat ->
  returns n (loop fuel (doubletapped_step T array less_than) (0, n))
    (fun s => 0 <= fst s /\ 1 <= snd s <= 2 /\ fst s + snd s <= n).
Proof.
  intros Hn Hfuel.
  apply returns_loop with
    (Inv := fun s => 0 <= fst s /\ 1 <= snd s /\ fst s + snd s <= n)
    (mu := fun s => Z.to_nat (snd s)); cbn [fst snd]; try lia.
  intros [bot mid] (Hbot & Hmid & Hsum); cbn [fst snd] in *.
  unfold doubletapped_step. destruct (Z.gtb_spec mid 2).
  - exec_deref x Hx; [divlia|]. exec_less.
    destruct (less_than x); simpl; apply returns_ret; cbn [fst snd]; divlia.
  - apply returns_ret; cbn [fst snd]; lia.
Qed.

Lemma monobound_loop_safe (fuel : nat) :
  0 < n -> (Z.to_nat n < fuel)%nat ->
  returns n (loop fuel (monobound_step T array less_than) (0, n))
    (fun s => 0 <= fst s < n).
Proof.
  intros Hn Hfuel.
  apply returns_loop with
    (Inv := fun s => 0 <= fst s /\ 1 <= snd s /\ fst s + snd s <= n)
    (mu := fun s => Z.to_nat (snd s)); cbn [fst snd]; try lia.
  intros [low high] (Hlow & Hhigh & Hsum); cbn [fst snd] in *.
  unfold monobound_step, begin_. rewrite Z.sub_0_r, !Z.add_0_l.
  destruct (Z.gtb_spec high 1).
  - exec_deref x Hx; [divlia|]. exec_less.
    destruct (less_than x); simpl; apply returns_ret; cbn [fst snd]; divlia.
  - apply returns_ret; cbn [fst snd]; lia.
Qed.

Lemma narrow_loop_safe (fuel : nat) (bot top : Z) :
  0 <= bot -> 1 <= top -> bot + top <= n -> (Z.to_nat top < fuel)%nat ->
  returns n (loop fuel (narrow_step T array less_than) (bot, top))
    (fun s => 0 <= fst s /\ 1 <= snd s <= 3 /\ fst s + snd s <= n).
Proof.
  intros Hbot Htop Hsum Hfuel.
  apply returns_loop with
    (Inv := fun s => 0 <= fst s /\ 1 <= snd s /\ fst s + snd s <= n)
    (mu := fun s => Z.to_nat (snd s)); cbn [fst snd]; try lia.
  clear bot top Hbot Htop Hsum Hfuel.
  intros [bot top] (Hbot & Htop & Hsum); cbn [fst snd] in *.
  unfold narrow_step. destruct (Z.gtb_spec top 3).
  - exec_deref x Hx; [divlia|]. exec_less.
    destruct (less_than x); simpl; apply returns_ret; cbn [fst snd]; divlia.
  - apply returns_ret; cbn [fst snd]; lia.
Qed.

Lemma quaternary_loop_safe (fuel : nat) :
  0 < n -> (Z.to_nat n < fuel)%nat ->
  returns n (loop fuel (quaternary_step T array less_than) (0, n))
    (fun s => 0 <= fst s /\ 1 <= snd s /\ fst s + snd s <= n).
Proof.
  intros Hn Hfuel.
  apply returns_loop with
    (Inv := fun s => 0 <= fst s /\ 1 <= snd s /\ fst s + snd s <= n)
    (mu := fun s => Z.to_nat (snd s)); cbn [fst snd]; try lia.
  intros [bot top] (Hbot & Htop & Hsum). cbn [fst snd] in *.
  unfold quaternary_step.
  destruct (Z.geb_spec top 65536).
  - exec_deref x Hx; [divlia|]. exec_less.
    destruct (less_than x).
    + exec_deref y Hy; [divlia|]. exec_less.
      destruct (less_than y); simpl; apply returns_ret; cbn [fst snd]; divlia.
    + exec_deref y Hy; [divlia|]. exec_less.
      destruct (less_than y); simpl; apply returns_ret; cbn [fst snd]; divlia.
  - apply returns_ret; cbn [fst snd]; lia.
Qed.

Variable equal_to : T -> bool.

(** The final taps [bot + top - 1], ..., [bot] of a window inside the range. *)
Lemma tap_loop_safe (fuel : nat) (bot top : Z) :
  0 <= bot -> 0 <= top -> bot + top <= n -> (Z.to_nat top < fuel)%nat ->
  returns n (loop fuel (tap_step T array equal_to bot) top)
    (fun it => 0 <= it <= n).
Proof.
  intros Hbot Htop Hsum Hfuel.
  apply returns_loop with
    (Inv := fun k => 0 <= k <= top) (mu := fun k => Z.to_nat k); try lia.
  intros k Hk. unfold tap_step.
  destruct (Z.eqb_spec k 0); cbn [negb].
  - apply returns_ret. unfold end_. lia.
  - exec_deref x Hx; [lia|]. exec_equal.
    destruct (equal_to x); apply returns_ret; lia.
Qed.

Hypothesis nonempty : 0 < n.
Variable fuel : nat.
Hypothesis enough : (Z.to_nat n + 3 < fuel)%nat.

Local Abbreviation in_range := (fun it : Z => 0 <= it <= n).

Ltac enter :=
  unfold begin_, end_;
  destruct (Z.eqb_spec 0 n); [lia|];
  exec_assert; [apply Z.ltb_lt; lia|].

Lemma boundless_safe :
  returns n (boundless_binary_search_base NDEBUG array less_than equal_to fuel) in_range.
Proof.
  unfold boundless_binary_search_base. enter.
  eapply returns_bind; [apply boundless_loop_safe; lia|].
  intros [bot mid] Hbot; cbn [fst] in Hbot.
  exec_deref x Hx; [exact Hbot|]. exec_equal.
  apply returns_ret. destruct (equal_to x); lia.
Qed.

Lemma doubletapped_safe :
  returns n (doubletapped_binary_search_base NDEBUG array less_than equal_to fuel) in_range.
Proof.
  unfold doubletapped_binary_search_base, begin_, end_.
  exec_assert; [apply Z.ltb_lt; lia|].
  eapply returns_bind; [apply doubletapped_loop_safe; lia|].
  intros [bot mid] H; cbn [fst snd] in H.
  apply tap_loop_safe; lia.
Qed.

Lemma monobound_safe :
  returns n (monobound_binary_search_base NDEBUG array less_than equal_to fuel) in_range.
Proof.
  unfold monobound_binary_search_base. enter.
  eapply returns_bind; [apply monobound_loop_safe; lia|].
  intros [low high] Hlow; cbn [fst] in Hlow.
  exec_deref x Hx; [exact Hlow|]. exec_equal.
  apply returns_ret. destruct (equal_to x); lia.
Qed.

Lemma tripletapped_safe :
  returns n (tripletapped_binary_search_base NDEBUG array less_than equal_to fuel) in_range.
Proof.
  unfold tripletapped_binary_search_base. enter.
  eapply returns_bind; [apply narrow_loop_safe; lia|].
  intros [bot top] H. rewrite tripletapped_tap_none by lia.
  apply returns_ret. unfold end_. lia.
Qed.

Lemma quaternary_safe :
  returns n (monobound_quaternary_search_base NDEBUG array less_than equal_to fuel) in_range.
Proof.
  unfold monobound_quaternary_search_base. enter.
  eapply returns_bind; [apply quaternary_loop_safe; lia|].
  intros [bot top] H; cbn [fst snd] in H.
  eapply returns_bind; [apply narrow_loop_safe; lia|].
  intros [bot' top'] H'; cbn [fst snd] in H'.
  apply tap_loop_safe; lia.
Qed.

End Safety.

(** ** Facts about [outcome] *)

Lemma outcome_bind_value {A B} (a : A) (t : trace) (k : A -> M B) :
  outcome (bind (Ret a, t) k) = outcome (k a).
Proof. unfold bind, outcome. destruct (k a); reflexivity. Qed.

Lemma outcome_bind_inv {A B} (m : M A) (k : A -> M B) (b : B) :
  outcome (bind m k) = Ret b ->
  exists a, outcome m = Ret a /\ outcome (k a) = Ret b.
Proof.
  destruct m as [[a|f] t]; [|discriminate].
  rewrite outcome_bind_value. intros H. exists a. split; [reflexivity | exact H].
Qed.

Lemma deref_at {T} (array : list T) (j : Z) (x : T) :
  at_offset array j x -> deref array j = (Ret x, [Deref j]).
Proof.
  intros [Hj Hx]. unfold deref. rewrite Hx.
  assert (Hlt : (Z.to_nat j < length array)%nat)
    by (apply nth_error_Some; congruence).
  replace ((0 <=? j) && (j <? size array)) with true; [reflexivity|].
  symmetry; apply andb_true_iff; split;
    [apply Z.leb_le | apply Z.ltb_lt; unfold size]; lia.
Qed.

(** ** The standard binary search does not always return *)

(** With two candidates left the midpoint is [low] itself; when the element
    there is not above the key, the body assigns [low = mid] and the window
    is unchanged. *)
Lemma standard_step_stuck {T} (array : list T) (less_than : T -> bool)
  (low : Z) (x : T) :
  at_offset array low x -> less_than x = false ->
  standard_step T array less_than (low, low + 1)
  = (Ret (inl (low, low + 1)), [Deref low; Less]).
Proof.
  intros Hx Hlt. unfold standard_step.
  replace (low <? low + 1) with true by (symmetry; apply Z.ltb_lt; lia).
  replace (low + Z.quot (low + 1 - low) 2) with low
    by (replace (low + 1 - low) with 1 by lia; change (Z.quot 1 2) with 0; lia).
  rewrite (deref_at _ _ _ Hx). unfold call_less. cbn. rewrite Hlt. reflexivity.
Qed.

Lemma standard_loop_stuck {T} (array : list T) (less_than : T -> bool)
  (low : Z) (x : T) :
  at_offset array low x -> less_than x = false ->
  forall fuel,
    outcome (loop fuel (standard_step T array less_than) (low, low + 1))
    = Fault OutOfFuel.
Proof.
  intros Hx Hlt fuel. induction fuel as [|fuel IH]; [reflexivity|].
  cbn [loop]. rewrite (standard_step_stuck _ _ _ _ Hx Hlt).
  rewrite outcome_bind_value. exact IH.
Qed.

Lemma outcome_bind_fault {A B} (m : M A) (k : A -> M B) (f : fault) :
  outcome m = Fault f -> outcome (bind m k) = Fault f.
Proof.
  destruct m as [[a|f'] t]; simpl; [discriminate|]. intros H; congruence.
Qed.

Lemma outcome_loop_continue {S R} (step : S -> M (S + R)) (s s' : S)
  (t : trace) (fuel : nat) :
  step s = (Ret (inl s'), t) ->
  outcome (loop (Datatypes.S fuel) step s) = outcome (loop fuel step s').
Proof.
  intros Hs. cbn [loop]. rewrite Hs, outcome_bind_value. reflexivity.
Qed.

Lemma assert_holds (NDEBUG : bool) : assert NDEBUG true = ret tt.
Proof. destruct NDEBUG; reflexivity. Qed.

Lemma bind_ret_l {A B} (a : A) (k : A -> M B) : bind (ret a) k = k a.
Proof. unfold bind, ret. destruct (k a); reflexivity. Qed.

(** C2.  The specification has every call of every variant return, the
    narrowing loop of the standard binary search making progress on every
    non-empty sorted range.  On the sorted range [1, 3] with key [3] (which
    is present) the loop never exits: whatever the fuel, the call of
    [standard_binary_search] with the natural [<] and [==] yields no
    value. *)
Theorem standard_binary_search_diverges :
  forall (NDEBUG : bool) (fuel : nat),
    is_sorted [1; 3] = true /\
    In 3 [1; 3] /\
    outcome (standard_binary_search NDEBUG [1; 3] Z.ltb Z.eqb 3 fuel)
    = Fault OutOfFuel.
Proof.
  intros NDEBUG fuel. split; [reflexivity|]. split; [simpl; auto|].
  unfold standard_binary_search, standard_binary_search_base.
  change (begin_ =? end_ [1; 3]) with false. cbv iota.
  change (begin_ <? end_ [1; 3]) with true.
  rewrite assert_holds, bind_ret_l.
  apply outcome_bind_fault.
  apply (standard_loop_stuck [1; 3] (fun right => 3 <? right) 0 1);
    [split; [lia | reflexivity] | reflexivity].
Qed.

(** C3.  Standard binary search over [1,3,5,7,9]: for key [5] it returns
    the iterator at index 2, as specified; for key [4] the specification
    has the end sentinel, but the call never returns: after one halving the
    window is [(low, high) = (0, 1)] and stays there. *)
Theorem standard_binary_search_example :
  forall (NDEBUG : bool) (fuel : nat),
    outcome (standard_binary_search_default NDEBUG odds 5 (3 + fuel)) = Ret 2 /\
    outcome (standard_binary_search_default NDEBUG odds 4 fuel) = Fault OutOfFuel.
Proof.
  intros NDEBUG fuel. split.
  - destruct NDEBUG; reflexivity.
  - unfold standard_binary_search_default, standard_binary_search_base.
    change (begin_ =? end_ odds) with false. cbv iota.
    change (begin_ <? end_ odds) with true.
    rewrite assert_holds, bind_ret_l.
    apply outcome_bind_fault.
    destruct fuel as [|fuel]; [reflexivity|].
    rewrite outcome_loop_continue with (s' := (0, 0 + 1)) (t := [Deref 2; Less])
      by reflexivity.
    apply (standard_loop_stuck odds (fun right => 4 <? right) 0 1);
      [split; [lia | reflexivity] | reflexivity].
Qed.

(** ** Worked inputs on the range [1, 3, 5, 7, 9] *)

(** The tail loop of the tripletapped search never runs, so on a non-empty
    range the function returns [end] whatever the predicates are. *)
Lemma tripletapped_always_end {T} (NDEBUG : bool) (array : list T)
  (less_than equal_to : T -> bool) (fuel : nat) :
  0 < size array -> (Z.to_nat (size array) + 3 < fuel)%nat ->
  returns (size array)
    (tripletapped_binary_search_base NDEBUG array less_than equal_to fuel)
    (fun it => it = end_ array).
Proof.
  intros Hn Hfuel. unfold tripletapped_binary_search_base, begin_, end_.
  destruct (Z.eqb_spec 0 (size array)); [lia|].
  exec_assert; [apply Z.ltb_lt; lia|].
  eapply returns_bind; [apply narrow_loop_safe; lia|].
  intros [bot top] _. rewrite tripletapped_tap_none by lia.
  apply returns_ret. reflexivity.
Qed.

(** C1.  The specification has every variant find a present key.  On the
    sorted range [1,3,5,7,9] the key [5] is present, yet the tripletapped
    search returns the end sentinel after a single comparison; the
    monobound search returns the end sentinel for the present key [7]; the
    default form of the breaking linear search returns the end sentinel for
    key [5] after looking at the last element only. *)
Theorem present_key_not_found :
  forall (NDEBUG : bool) (fuel : nat),
    is_sorted odds = true /\ In 5 odds /\ In 7 odds /\
    tripletapped_binary_search NDEBUG odds Z.ltb Z.eqb 5 (2 + fuel)
    = (Ret (end_ odds), [Deref 2; Less]) /\
    outcome (monobound_binary_search NDEBUG odds Z.ltb Z.eqb 7 (4 + fuel))
    = Ret (end_ odds) /\
    breaking_linear_search_default NDEBUG odds 5 (1 + fuel)
    = (Ret (end_ odds), [Deref 4; Less; Deref 4; Equal]).
Proof.
  intros NDEBUG fuel.
  split; [reflexivity|]. split; [simpl; tauto|]. split; [simpl; tauto|].
  repeat split; destruct NDEBUG; reflexivity.
Qed.

(** The nine variants that test [begin == end] first return [end] on an
    empty range without any comparison or dereference, in debug and release
    builds (the interpolated one for the predicate objects it can be
    instantiated at); so does the doubletapped search in a release build. *)
Lemma empty_range_guarded {T K} (NDEBUG : bool)
  (less_than equal_to : T -> bool)
  (interpolate : Z -> K -> T -> T -> Z)
  (less_it equal_it : Z -> bool)
  (array_size : Z) (key : K) (state : adaptive_binary_search_state)
  (fuel : nat) :
  let found_nothing : M Z := (Ret (end_ (@nil T)), []) in
  linear_search_base NDEBUG [] equal_to fuel = found_nothing /\
  breaking_linear_search_base NDEBUG [] less_than equal_to fuel = found_nothing /\
  standard_binary_search_base NDEBUG [] less_than equal_to fuel = found_nothing /\
  boundless_binary_search_base NDEBUG [] less_than equal_to fuel = found_nothing /\
  monobound_binary_search_base NDEBUG [] less_than equal_to fuel = found_nothing /\
  tripletapped_binary_search_base NDEBUG [] less_than equal_to fuel = found_nothing /\
  monobound_quaternary_search_base NDEBUG [] less_than equal_to fuel = found_nothing /\
  monobound_interpolated_search_base NDEBUG [] interpolate
    {| at_element := Some less_than; at_iterator := Some less_it |}
    {| at_element := Some equal_to; at_iterator := Some equal_it |} key fuel
  = found_nothing /\
  adaptive_binary_search_base NDEBUG [] array_size less_than equal_to key state fuel
  = (Ret (end_ (@nil T), state), []) /\
  doubletapped_binary_search_base true [] less_than equal_to (1 + fuel) = found_nothing.
Proof.
  repeat split; reflexivity.
Qed.

(** C4.  The specification has every variant return [end] on an empty
    range, the assertion of the doubletapped search not firing there.  The
    doubletapped search has no [begin == end] test before
    [assert(begin < end)]: in a debug build the call on an empty range ends
    in the assertion failure, before any comparison. *)
Theorem doubletapped_empty_range_asserts :
  forall (T : Type) (less_than equal_to : T -> bool) (fuel : nat),
    doubletapped_binary_search_base false [] less_than equal_to fuel
    = (Fault AssertionFailed, []).
Proof.
  intros T less_than equal_to fuel. reflexivity.
Qed.

(** C5.  The specification has all variants agree on whether the result
    is the end sentinel.  For key [5] in [1,3,5,7,9] the linear search
    returns the iterator at index 2 and the tripletapped search returns
    [end]. *)
Theorem variants_disagree_on_existence :
  forall (NDEBUG : bool) (fuel : nat),
    outcome (linear_search NDEBUG odds Z.eqb 5 (3 + fuel)) = Ret 2 /\
    outcome (tripletapped_binary_search NDEBUG odds Z.ltb Z.eqb 5 (2 + fuel))
    = Ret (end_ odds) /\
    2 <> end_ odds.
Proof.
  intros NDEBUG fuel.
  split; [|split]; [destruct NDEBUG; reflexivity .. | discriminate].
Qed.

(** C6.  The specification has the default form equal the keyed form
    taken at the natural [<] and [==].  The default forms of the breaking linear,
    boundless and doubletapped searches pass [key >= right] where the keyed
    form passes [less_than(key, right)]: for key [5] in [1,3,5,7,9] the
    keyed forms return the iterator at index 2 and the default forms return
    [end]. *)
Theorem default_form_differs_from_keyed :
  forall (NDEBUG : bool) (fuel : nat),
    (outcome (breaking_linear_search NDEBUG odds Z.ltb Z.eqb 5 (3 + fuel)) = Ret 2 /\
     outcome (breaking_linear_search_default NDEBUG odds 5 (3 + fuel)) = Ret (end_ odds)) /\
    (outcome (boundless_binary_search NDEBUG odds Z.ltb Z.eqb 5 (3 + fuel)) = Ret 2 /\
     outcome (boundless_binary_search_default NDEBUG odds 5 (3 + fuel)) = Ret (end_ odds)) /\
    (outcome (doubletapped_binary_search NDEBUG odds Z.ltb Z.eqb 5 (3 + fuel)) = Ret 2 /\
     outcome (doubletapped_binary_search_default NDEBUG odds 5 (3 + fuel)) = Ret (end_ odds)).
Proof.
  intros NDEBUG fuel. repeat split; destruct NDEBUG; reflexivity.
Qed.

(** C7.  Interpolated search on [1,3,5,7,9], default form.  The
    specification has [end] for key [0], the last element for key [9] and
    the iterator at index 2 for key [5].  The body of the function calls
    [equal_to(max)] and [less_than(std::next(begin, bot))], handing the
    predicates an iterator where every other call hands them an element;
    the lambdas of the default form are not callable there, so the
    instantiation is rejected and none of the three calls yields an
    iterator or performs any access. *)
Theorem interpolated_search_example :
  forall (NDEBUG : bool) (interpolate : Z -> Z -> Z -> Z -> Z) (fuel : nat),
    monobound_interpolated_search_default NDEBUG odds 0 interpolate fuel
    = (Fault IllFormed, []) /\
    monobound_interpolated_search_default NDEBUG odds 9 interpolate fuel
    = (Fault IllFormed, []) /\
    monobound_interpolated_search_default NDEBUG odds 5 interpolate fuel
    = (Fault IllFormed, []).
Proof.
  intros NDEBUG interpolate fuel. repeat split; reflexivity.
Qed.

(** ** Memory safety of the windowed searches, collected *)

(** C10.  On a non-empty range, with any predicates, the boundless,
    doubletapped, monobound, tripletapped and monobound-quaternary searches
    return an iterator in [[begin, end]], and every element access they
    perform is at an offset in [[0, size)]: no dereference at or past
    [end], in debug and release builds alike. *)
Theorem windowed_searches_stay_in_range :
  forall (T : Type) (NDEBUG : bool) (array : list T)
         (less_than equal_to : T -> bool) (fuel : nat),
    array <> [] ->
    (length array + 3 < fuel)%nat ->
    let safe (m : M Z) :=
      returns (size array) m (fun it => 0 <= it <= size array) in
    safe (boundless_binary_search_base NDEBUG array less_than equal_to fuel) /\
    safe (doubletapped_binary_search_base NDEBUG array less_than equal_to fuel) /\
    safe (monobound_binary_search_base NDEBUG array less_than equal_to fuel) /\
    safe (tripletapped_binary_search_base NDEBUG array less_than equal_to fuel) /\
    safe (monobound_quaternary_search_base NDEBUG array less_than equal_to fuel).
Proof.
  intros T NDEBUG array less_than equal_to fuel Hne Hfuel safe.
  assert (Hn : 0 < size array)
    by (unfold size; destruct array; [congruence | simpl; lia]).
  assert (Hf : (Z.to_nat (size array) + 3 < fuel)%nat)
    by (unfold size; rewrite Nat2Z.id; exact Hfuel).
  unfold safe. split; [|split; [|split; [|split]]].
  - apply boundless_safe; assumption.
  - apply doubletapped_safe; assumption.
  - apply monobound_safe; assumption.
  - apply tripletapped_safe; assumption.
  - apply quaternary_safe; assumption.
Qed.

Lemma windowed_searches_stay_in_range_witness :
  odds <> [] /\
  (length odds + 3 < 10)%nat /\
  let safe (m : M Z) :=
    returns (size odds) m (fun it => 0 <= it <= size odds) in
  safe (boundless_binary_search_base false odds (Z.ltb 5) (Z.eqb 5) 10) /\
  safe (doubletapped_binary_search_base false odds (Z.ltb 5) (Z.eqb 5) 10) /\
  safe (monobound_binary_search_base false odds (Z.ltb 5) (Z.eqb 5) 10) /\
  safe (tripletapped_binary_search_base false odds (Z.ltb 5) (Z.eqb 5) 10) /\
  safe (monobound_quaternary_search_base false odds (Z.ltb 5) (Z.eqb 5) 10).
Proof.
  split; [discriminate|]. split; [simpl; lia|].
  apply (windowed_searches_stay_in_range Z false odds (Z.ltb 5) (Z.eqb 5) 10);
    [discriminate | simpl; lia].
Defined.

(** ** The adaptive search: state and anchored gallop *)

(** The adaptive binary search receives the caller-owned record by
    reference but contains no assignment to it: whenever a call returns,
    the record holds the values it held before the call. *)
Lemma adaptive_state_unchanged :
  forall (T K : Type) (NDEBUG : bool) (array : list T) (array_size : Z)
         (less_than equal_to : T -> bool) (key : K)
         (state : adaptive_binary_search_state) (fuel : nat)
         (it : Z) (state' : adaptive_binary_search_state),
    outcome (adaptive_binary_search_base NDEBUG array array_size
               less_than equal_to key state fuel) = Ret (it, state') ->
    state' = state.
Proof.
  intros T K NDEBUG array array_size less_than equal_to key state fuel it state'.
  unfold adaptive_binary_search_base.
  destruct (begin_ =? end_ array).
  - cbn. congruence.
  - intros H.
    apply outcome_bind_inv in H. destruct H as [u [_ H]].
    apply outcome_bind_inv in H. destruct H as [[bot top] [_ H]].
    apply outcome_bind_inv in H. destruct H as [r [_ H]].
    cbn in H. congruence.
Qed.

(** C8.  The specification has every call of the adaptive search mutate the
    caller-owned record, the state after a call reflecting that call.  The
    function takes the record by non-const reference and reads both fields
    to choose its mode and its anchor, but assigns neither.  The search for
    key [70] among [0, 1, ..., 99] from the zero state selects the anchored
    gallop, finds the key at offset 70, and returns with the record not
    mutated: [last_found_index] is still [0], not 70, and [balance] is
    still [0]. *)
Theorem adaptive_search_leaves_state_unwritten :
  forall (NDEBUG : bool) (array_size : Z),
    adaptive_select (iota 100) zero_state = AnchoredGallop /\
    exists state',
      outcome (adaptive_binary_search_default NDEBUG (iota 100) 70 array_size
                 zero_state 101)
      = Ret (70, state') /\
      ~ mutated zero_state state' /\
      i state' = 0 /\ balance state' = 0.
Proof.
  intros NDEBUG array_size. split; [reflexivity|].
  exists zero_state. split; [destruct NDEBUG; vm_compute; reflexivity|].
  split; [|split; reflexivity].
  unfold mutated. intros [H | H]; apply H; reflexivity.
Qed.

(** *** Sorted arrays *)

Lemma is_sorted_tail (x : Z) (l : list Z) :
  is_sorted (x :: l) = true -> is_sorted l = true.
Proof.
  destruct l as [|y l]; [reflexivity|].
  cbn [is_sorted]. intros H. apply andb_true_iff in H. tauto.
Qed.

Lemma is_sorted_head_le (l : list Z) :
  forall x y, is_sorted (x :: l) = true -> In y l -> x <= y.
Proof.
  induction l as [|z l IH]; intros x y Hs Hy; [contradiction|].
  cbn [is_sorted] in Hs. apply andb_true_iff in Hs. destruct Hs as [Hxz Hs].
  apply Z.leb_le in Hxz. destruct Hy as [-> | Hy]; [exact Hxz|].
  specialize (IH z y Hs Hy). lia.
Qed.

Lemma is_sorted_nth_error (l : list Z) :
  is_sorted l = true ->
  forall (p q : nat) (x y : Z),
    (p <= q)%nat -> nth_error l p = Some x -> nth_error l q = Some y -> x <= y.
Proof.
  induction l as [|z l IH]; intros Hs p q x y Hpq Hp Hq.
  - destruct p; discriminate.
  - destruct p as [|p], q as [|q]; cbn [nth_error] in Hp, Hq.
    + assert (x = y) by congruence. lia.
    + injection Hp as <-. apply nth_error_In in Hq.
      eapply is_sorted_head_le; eauto.
    + lia.
    + eapply (IH (is_sorted_tail _ _ Hs) p q); eauto. lia.
Qed.

Lemma sorted_at_offset (array : list Z) (j1 j2 x1 x2 : Z) :
  is_sorted array = true ->
  j1 <= j2 -> at_offset array j1 x1 -> at_offset array j2 x2 -> x1 <= x2.
Proof.
  intros Hs Hj [H1 Hx1] [H2 Hx2].
  eapply (is_sorted_nth_error array Hs (Z.to_nat j1) (Z.to_nat j2)); eauto. lia.
Qed.

Lemma at_offset_bound {T} (array : list T) (j : Z) (x : T) :
  at_offset array j x -> 0 <= j < size array.
Proof.
  intros [Hj Hx]. split; [exact Hj|].
  assert ((Z.to_nat j < length array)%nat) by (apply nth_error_Some; congruence).
  unfold size. lia.
Qed.

Lemma at_offset_In {T} (array : list T) (j : Z) (x : T) :
  at_offset array j x -> In x array.
Proof. intros [_ Hx]. eapply nth_error_In; eauto. Qed.

Lemma In_at_offset {T} (array : list T) (x : T) :
  In x array -> exists j, at_offset array j x.
Proof.
  intros Hin. apply In_nth_error in Hin. destruct Hin as [p Hp].
  exists (Z.of_nat p). split; [lia | rewrite Nat2Z.id; exact Hp].
Qed.

Lemma at_offset_unique {T} (array : list T) (j : Z) (x y : T) :
  at_offset array j x -> at_offset array j y -> x = y.
Proof. intros [_ Hx] [_ Hy]. congruence. Qed.

(** *** The anchored gallop brackets the key *)

Section AnchoredGallop.

Variable array : list Z.
Variable key : Z.
Hypothesis sorted : is_sorted array = true.

Local Abbreviation n := (size array).
Local Abbreviation less_than := (fun right : Z => key <? right).
Local Abbreviation equal_to := (fun right : Z => key =? right).

(** Galloping towards [end], from an anchor whose element is not above
    the key. *)
Lemma adaptive_up_brackets (fuel : nat) (bot top x : Z) :
  at_offset array bot x -> x <= key -> 0 < top ->
  (Z.to_nat n < fuel)%nat ->
  returns n (loop fuel (adaptive_up_step Z array less_than) (bot, top))
    (brackets array key).
Proof.
  intros Hx Hle Htop Hfuel.
  apply returns_loop with
    (Inv := fun s => 0 < snd s /\
                     exists y, at_offset array (fst s) y /\ y <= key)
    (mu := fun s => Z.to_nat (n - fst s));
    cbn [fst snd]; [| eauto |
      apply at_offset_bound in Hx; lia].
  clear bot top x Hx Hle Htop Hfuel.
  intros [bot top] (Htop & y & Hy & Hle); cbn [fst snd] in *.
  pose proof (at_offset_bound _ _ _ Hy) as Hbot.
  unfold adaptive_up_step.
  destruct (Z.geb_spec (bot + top) n) as [Hge | Hlt].
  - apply returns_ret. unfold brackets.
    repeat split; try lia.
    intros Hin. apply In_at_offset in Hin. destruct Hin as [j Hj].
    pose proof (at_offset_bound _ _ _ Hj) as Hjn.
    destruct (Z_lt_le_dec j bot) as [Hjb | Hjb].
    + pose proof (sorted_at_offset array j bot key y sorted ltac:(lia) Hj Hy).
      assert (y = key) by lia. subst y.
      exists bot. split; [lia | exact Hy].
    + exists j. split; [lia | exact Hj].
  - exec_deref z Hz; [lia|]. exec_less.
    destruct (Z.ltb_spec key z) as [Hkz | Hkz]; apply returns_ret.
    + unfold brackets. replace (bot + top - top) with bot by lia.
      repeat split; try lia.
      intros Hin. apply In_at_offset in Hin. destruct Hin as [j Hj].
      destruct (Z_lt_le_dec j bot) as [Hjb | Hjb].
      * pose proof (sorted_at_offset array j bot key y sorted ltac:(lia) Hj Hy).
        assert (y = key) by lia. subst y.
        exists bot. split; [lia | exact Hy].
      * destruct (Z_lt_le_dec j (bot + top)) as [Hjt | Hjt].
        -- exists j. split; [lia | exact Hj].
        -- pose proof (sorted_at_offset array (bot + top) j z key sorted
                         ltac:(lia) Hz Hj). lia.
    + cbn [fst snd]. split; [split; [lia | exists z; auto] | lia].
Qed.

(** Galloping towards [begin], from an anchor whose element is above the
    key. *)
Lemma adaptive_down_brackets (fuel : nat) (bot top x : Z) :
  at_offset array bot x -> key < x -> 0 < top ->
  (Z.to_nat n < fuel)%nat ->
  returns n (loop fuel (adaptive_down_step Z array less_than) (bot, top))
    (brackets array key).
Proof.
  intros Hx Hlt Htop Hfuel.
  apply returns_loop with
    (Inv := fun s => 0 < snd s /\
                     exists y, at_offset array (fst s) y /\ key < y)
    (mu := fun s => Z.to_nat (fst s));
    cbn [fst snd]; [| eauto |
      apply at_offset_bound in Hx; lia].
  clear bot top x Hx Hlt Htop Hfuel.
  intros [bot top] (Htop & y & Hy & Hlt); cbn [fst snd] in *.
  pose proof (at_offset_bound _ _ _ Hy) as Hbot.
  assert (Hbelow : forall j, at_offset array j key -> 0 <= j < bot).
  { intros j Hj. pose proof (at_offset_bound _ _ _ Hj).
    destruct (Z_lt_le_dec j bot) as [Hjb | Hjb]; [lia|].
    pose proof (sorted_at_offset array bot j y key sorted Hjb Hy Hj). lia. }
  unfold adaptive_down_step.
  destruct (Z.ltb_spec bot top) as [Hbt | Hbt].
  - apply returns_ret. unfold brackets.
    repeat split; try lia.
    intros Hin. apply In_at_offset in Hin. destruct Hin as [j Hj].
    exists j. split; [apply Hbelow in Hj; lia | exact Hj].
  - exec_deref z Hz; [lia|]. exec_less.
    destruct (Z.ltb_spec key z) as [Hkz | Hkz]; cbn [negb]; apply returns_ret.
    + cbn [fst snd]. split; [split; [lia | exists z; auto] | lia].
    + unfold brackets. repeat split; try lia.
      intros Hin. apply In_at_offset in Hin. destruct Hin as [j Hj].
      pose proof (Hbelow j Hj) as Hjb.
      destruct (Z_lt_le_dec j (bot - top)) as [Hjl | Hjl].
      * pose proof (sorted_at_offset array j (bot - top) key z sorted
                      ltac:(lia) Hj Hz).
        assert (z = key) by lia. subst z.
        exists (bot - top). split; [lia | exact Hz].
      * exists j. split; [lia | exact Hj].
Qed.

(** The final linear scan of a bracketing window answers the lookup. *)
Lemma adaptive_tap_answers (fuel : nat) (bot top : Z) :
  brackets array key (bot, top) ->
  (Z.to_nat top < fuel)%nat ->
  returns n (loop fuel (adaptive_tap_step Z array equal_to bot) top)
    (answers array key).
Proof.
  intros (Hbot & Htop & Hsum & Hwin) Hfuel.
  apply returns_loop with
    (Inv := fun k => 0 <= k <= top /\
                     forall j, bot + k <= j < bot + top ->
                               ~ at_offset array j key)
    (mu := fun k => Z.to_nat k); [| split; [lia | intros; lia] | lia].
  intros k (Hk & Hnone). unfold adaptive_tap_step.
  destruct (Z.eqb_spec k 0) as [-> | Hk0]; cbn [negb].
  - apply returns_ret. split; [|reflexivity].
    intros Hin. destruct (Hwin Hin) as [j [Hj Hjk]].
    exfalso. apply (Hnone j); [lia | exact Hjk].
  - exec_deref z Hz; [lia|]. exec_equal.
    destruct (Z.eqb_spec key z) as [<- | Hne]; apply returns_ret.
    + split; [intros _; exact Hz|].
      intros Hnot. exfalso. apply Hnot. eapply at_offset_In; eauto.
    + split; [split; [lia|] | lia].
      intros j Hj Hjk.
      destruct (Z.eq_dec j (bot + (k - 1))) as [-> | Hjne].
      * apply Hne. eapply at_offset_unique; eauto.
      * apply (Hnone j); [lia | exact Hjk].
Qed.

End AnchoredGallop.

(** One adaptive call in the anchored mode: on a sorted range of more than
    64 elements, with a balance below 32 and an anchor inside the range, the
    call selects the anchored gallop, returns an iterator that answers the
    lookup, and hands the record back. *)
Lemma adaptive_anchored_answers (NDEBUG : bool) (array : list Z)
  (array_size key : Z) (state : adaptive_binary_search_state) (fuel : nat) :
  is_sorted array = true ->
  64 < size array ->
  balance state < 32 ->
  0 <= i state < size array -> i state < 2 ^ 63 ->
  (Z.to_nat (size array) < fuel)%nat ->
  adaptive_select array state = AnchoredGallop /\
  returns (size array)
    (adaptive_binary_search_default NDEBUG array key array_size state fuel)
    (fun r => answers array key (fst r) /\ snd r = state).
Proof.
  intros Hs Hsize Hbal Hi Hi63 Hfuel.
  assert (Hsel : adaptive_select array state = AnchoredGallop).
  { unfold adaptive_select.
    replace (balance state <? 32) with true by (symmetry; apply Z.ltb_lt; lia).
    replace (size array >? 64) with true by (symmetry; apply Z.gtb_lt; lia).
    reflexivity. }
  split; [exact Hsel|].
  unfold adaptive_binary_search_default, adaptive_binary_search_base.
  rewrite Hsel. unfold begin_, end_.
  destruct (Z.eqb_spec 0 (size array)); [lia|].
  exec_assert; [apply Z.ltb_lt; lia|].
  assert (Hptr : to_ptrdiff (i state) = i state).
  { unfold to_ptrdiff.
    replace (i state <? 2 ^ 63) with true by (symmetry; apply Z.ltb_lt; lia).
    reflexivity. }
  rewrite Hptr.
  eapply returns_bind with (P := brackets array key).
  - exec_deref x Hx; [lia|]. exec_less.
    destruct (Z.ltb_spec key x) as [Hlt | Hle]; cbn [negb].
    + eapply adaptive_down_brackets; eauto. lia.
    + eapply adaptive_up_brackets; eauto. lia.
  - intros [bot top] Hw.
    eapply returns_bind; [apply adaptive_tap_answers; [exact Hw|]|].
    + destruct Hw as (? & ? & ? & _). lia.
    + intros it Hit. apply returns_ret. split; [exact Hit | reflexivity].
Qed.

Lemma adaptive_searches_from_zero (NDEBUG : bool) (array : list Z)
  (array_size : Z) (fuel : nat) :
  is_sorted array = true ->
  64 < size array ->
  (Z.to_nat (size array) < fuel)%nat ->
  forall keys,
    Forall2 (anchored_hit array) keys
      (adaptive_searches NDEBUG array array_size zero_state keys fuel).
Proof.
  intros Hs Hsize Hfuel keys.
  induction keys as [|key keys IH]; [constructor|].
  cbn [adaptive_searches].
  destruct (adaptive_anchored_answers NDEBUG array array_size key zero_state fuel)
    as [Hsel [[[it st'] [Hout [Hans Hst]]] _]];
    try assumption; cbn [zero_state i balance]; try lia.
  cbn [fst snd] in Hans, Hst. subst st'.
  rewrite Hout. constructor; [|exact IH].
  split; [exact Hsel|].
  exists it, zero_state. cbn [snd].
  split; [exact Hout|]. split; [exact Hans|]. cbn. lia.
Qed.

(** C9.  On any sorted array of 1000 integers, starting from the zero
    state, the successive adaptive searches for the keys 100, 101, ..., 110
    and then 900 each select the anchored gallop, each return an iterator
    that answers the lookup (an element equal to the key when the array has
    one, [end] otherwise), and each leave a balance below the threshold. *)
Theorem adaptive_locality :
  forall (NDEBUG : bool) (array : list Z) (array_size : Z) (fuel : nat),
    length array = 1000%nat ->
    is_sorted array = true ->
    (1000 < fuel)%nat ->
    Forall2 (anchored_hit array) locality_keys
      (adaptive_searches NDEBUG array array_size zero_state locality_keys fuel).
Proof.
  intros NDEBUG array array_size fuel Hlen Hs Hfuel.
  assert (Hsize : size array = 1000) by (unfold size; rewrite Hlen; reflexivity).
  apply adaptive_searches_from_zero; [exact Hs | lia | rewrite Hsize; lia].
Qed.

Lemma adaptive_locality_witness :
  length (iota 1000) = 1000%nat /\
  is_sorted (iota 1000) = true /\
  (1000 < 1001)%nat /\
  Forall2 (anchored_hit (iota 1000)) locality_keys
    (adaptive_searches false (iota 1000) 0 zero_state locality_keys 1001).
Proof.
  split; [vm_compute; reflexivity|].
  split; [vm_compute; reflexivity|].
  split; [lia|].
  apply (adaptive_locality false (iota 1000) 0 1001);
    [vm_compute; reflexivity | vm_compute; reflexivity | lia].
Defined.

(** On the array [0, 1, ..., 999] the iterators of the scenario are the keys
    themselves, and the record stays the zero state. *)
Lemma iota_scenario_indices :
  map (fun call => outcome (snd call))
    (adaptive_searches false (iota 1000) 0 zero_state locality_keys 1001)
  = map (fun key => Ret (key, zero_state)) locality_keys.
Proof. vm_compute. reflexivity. Qed.


(** * Further properties of the searches *)

(** ** linear_search: the highest match, on any range *)

Section LinearSearch.

Context {T : Type}.
Variable NDEBUG : bool.
Variable array : list T.
Variable equal_to : T -> bool.

Local Abbreviation n := (size array).

Lemma linear_loop_highest (fuel : nat) :
  0 < n -> (Z.to_nat n + 1 < fuel)%nat ->
  returns n (loop fuel (linear_step T array equal_to) (n - 1))
    (highest_match array equal_to).
Proof.
  intros Hn Hfuel.
  apply returns_loop with
    (Inv := fun k => -1 <= k < n /\
                     forall j y, k < j -> at_offset array j y -> equal_to y = false)
    (mu := fun k => Z.to_nat (k + 1)); [| split; [lia|] | lia].
  - intros k (Hk & Habove). unfold linear_step, begin_.
    destruct (Z.geb_spec k 0) as [Hge | Hlt].
    + exec_deref x Hx; [lia|]. exec_equal.
      destruct (equal_to x) eqn:Heq; apply returns_ret.
      * left. exists x. auto.
      * split; [split; [lia|] | lia].
        intros j y Hj Hy. destruct (Z.eq_dec j k) as [-> | Hne].
        -- rewrite (at_offset_unique _ _ _ _ Hy Hx). exact Heq.
        -- apply (Habove j y); [lia | exact Hy].
    + apply returns_ret. right. split; [reflexivity|].
      intros j y Hy. apply (Habove j y); [|exact Hy].
      apply at_offset_bound in Hy. lia.
  - intros j y Hj Hy. apply at_offset_bound in Hy. lia.
Qed.

End LinearSearch.

Lemma linear_search_highest_array :
  forall (T : Type) (NDEBUG : bool) (array : list T) (equal_to : T -> bool)
         (fuel : nat),
    (length array + 1 < fuel)%nat ->
    returns (size array) (linear_search_base NDEBUG array equal_to fuel)
      (highest_match array equal_to).
Proof.
  intros T NDEBUG array equal_to fuel Hfuel.
  unfold linear_search_base, begin_, end_.
  destruct (Z.eqb_spec 0 (size array)) as [Hz | Hnz].
  - apply returns_ret. right. split; [reflexivity|].
    intros j y Hy. apply at_offset_bound in Hy. lia.
  - assert (Hn : 0 < size array) by (unfold size in *; lia).
    exec_assert; [apply Z.ltb_lt; lia|].
    apply linear_loop_highest; [exact Hn | unfold size; lia].
Qed.

(** X1.  On any range, sorted or not, and for any equality predicate, the
    linear search returns the highest offset whose element satisfies the
    predicate, and [end] when no element does; it never reads outside the
    range. *)
Theorem linear_search_highest_match :
  forall (T : Type) (NDEBUG : bool) (array : list T) (equal_to : T -> bool)
         (fuel : nat),
    (length array + 1 < fuel)%nat ->
    returns (size array) (linear_search_base NDEBUG array equal_to fuel)
      (highest_match array equal_to).
Proof. exact linear_search_highest_array. Qed.

Lemma linear_search_highest_match_witness :
  (length [2; 2; 2; 5] + 1 < 6)%nat /\
  returns (size [2; 2; 2; 5])
    (linear_search_base false [2; 2; 2; 5] (Z.eqb 2) 6)
    (highest_match [2; 2; 2; 5] (Z.eqb 2)).
Proof.
  split; [simpl; lia|].
  apply (linear_search_highest_match Z false [2; 2; 2; 5] (Z.eqb 2) 6).
  simpl; lia.
Defined.

(** ** The keyed searches on a sorted range of integers *)

Section KeyedSorted.

Variable array : list Z.
Variable key : Z.
Hypothesis sorted : is_sorted array = true.

Local Abbreviation n := (size array).
Local Abbreviation less_than := (fun right : Z => key <? right).
Local Abbreviation equal_to := (fun right : Z => key =? right).

(** One probe inside a bracketing window: the half that still brackets. *)
Lemma brackets_split (bot top h x : Z) :
  brackets array key (bot, top) -> 0 < h < top ->
  at_offset array (bot + h) x ->
  (x <= key -> brackets array key (bot + h, top - h)) /\
  (key < x -> brackets array key (bot, h)).
Proof.
  intros (Hbot & Htop & Hsum & Hwin) Hh Hx. split; intros Hcmp.
  - unfold brackets. repeat split; try lia.
    intros Hin. destruct (Hwin Hin) as [j [Hj Hjk]].
    destruct (Z_lt_le_dec j (bot + h)) as [Hlt | Hge].
    + pose proof (sorted_at_offset array j (bot + h) key x sorted
                    ltac:(lia) Hjk Hx).
      assert (x = key) by lia. subst x.
      exists (bot + h). split; [lia | exact Hx].
    + exists j. split; [lia | exact Hjk].
  - unfold brackets. repeat split; try lia.
    intros Hin. destruct (Hwin Hin) as [j [Hj Hjk]].
    destruct (Z_lt_le_dec j (bot + h)) as [Hlt | Hge].
    + exists j. split; [lia | exact Hjk].
    + pose proof (sorted_at_offset array (bot + h) j x key sorted Hge Hx Hjk).
      lia.
Qed.

Lemma brackets_widen (bot top top' : Z) :
  brackets array key (bot, top) -> top <= top' -> bot + top' <= n ->
  brackets array key (bot, top').
Proof.
  intros (Hbot & Htop & Hsum & Hwin) Hle Hsum'.
  unfold brackets. repeat split; try lia.
  intros Hin. destruct (Hwin Hin) as [j [Hj Hjk]].
  exists j. split; [lia | exact Hjk].
Qed.

Lemma brackets_whole : brackets array key (0, n).
Proof.
  unfold brackets. repeat split; try lia; [unfold size; lia|].
  intros Hin. apply In_at_offset in Hin. destruct Hin as [j Hj].
  exists j. split; [apply at_offset_bound in Hj; lia | exact Hj].
Qed.

(** A window of one element that brackets the key is decided by one
    equality test. *)
Lemma single_answers (bot x : Z) :
  brackets array key (bot, 1) -> at_offset array bot x ->
  answers array key (if key =? x then bot else end_ array).
Proof.
  intros (Hbot & _ & Hsum & Hwin) Hx.
  destruct (Z.eqb_spec key x) as [<- | Hne]; split.
  - intros _. exact Hx.
  - intros Hnot. exfalso. apply Hnot. eapply at_offset_In; eauto.
  - intros Hin. destruct (Hwin Hin) as [j [Hj Hjk]].
    assert (j = bot) by lia. subst j.
    exfalso. apply Hne. eapply at_offset_unique; eauto.
  - reflexivity.
Qed.

(** The final taps of a bracketing window answer the lookup. *)
Lemma tap_answers (fuel : nat) (bot top : Z) :
  brackets array key (bot, top) ->
  (Z.to_nat top < fuel)%nat ->
  returns n (loop fuel (tap_step Z array equal_to bot) top)
    (answers array key).
Proof.
  intros (Hbot & Htop & Hsum & Hwin) Hfuel.
  apply returns_loop with
    (Inv := fun k => 0 <= k <= top /\
                     forall j, bot + k <= j < bot + top ->
                               ~ at_offset array j key)
    (mu := fun k => Z.to_nat k); [| split; [lia | intros; lia] | lia].
  intros k (Hk & Hnone). unfold tap_step.
  destruct (Z.eqb_spec k 0) as [-> | Hk0]; cbn [negb].
  - apply returns_ret. split; [|reflexivity].
    intros Hin. destruct (Hwin Hin) as [j [Hj Hjk]].
    exfalso. apply (Hnone j); [lia | exact Hjk].
  - exec_deref z Hz; [lia|]. exec_equal.
    destruct (Z.eqb_spec key z) as [<- | Hne]; apply returns_ret.
    + split; [intros _; exact Hz|].
      intros Hnot. exfalso. apply Hnot. eapply at_offset_In; eauto.
    + split; [split; [lia|] | lia].
      intros j Hj Hjk.
      destruct (Z.eq_dec j (bot + (k - 1))) as [-> | Hjne].
      * apply Hne. eapply at_offset_unique; eauto.
      * apply (Hnone j); [lia | exact Hjk].
Qed.

Lemma boundless_loop_brackets (fuel : nat) :
  0 < n -> (Z.to_nat n < fuel)%nat ->
  returns n (loop fuel (boundless_step Z array less_than) (0, n))
    (fun s => brackets array key (fst s, 1)).
Proof.
  intros Hn Hfuel.
  apply returns_loop with
    (Inv := fun s => 1 <= snd s /\ brackets array key s)
    (mu := fun s => Z.to_nat (snd s));
    cbn [fst snd]; [| split; [lia | apply brackets_whole] | lia].
  intros [bot mid] (Hmid & Hw); cbn [fst snd] in *.
  pose proof Hw as (Hbot & _ & Hsum & _).
  unfold boundless_step. destruct (Z.gtb_spec mid 1) as [Hgt | Hle].
  - exec_deref x Hx; [divlia|]. exec_less.
    destruct (brackets_split bot mid (Z.quot mid 2) x Hw ltac:(divlia) Hx)
      as [Hup Hdown].
    destruct (Z.ltb_spec key x) as [Hkx | Hkx]; simpl; apply returns_ret;
      cbn [fst snd].
    + split; [split; [divlia | apply Hdown; exact Hkx] | divlia].
    + split; [split; [divlia|] | divlia].
      replace (Z.quot (mid + 1) 2) with (mid - Z.quot mid 2) by divlia.
      apply Hup; exact Hkx.
  - apply returns_ret. cbn [fst snd].
    replace 1 with mid by lia. exact Hw.
Qed.

Lemma doubletapped_loop_brackets (fuel : nat) :
  0 < n -> (Z.to_nat n < fuel)%nat ->
  returns n (loop fuel (doubletapped_step Z array less_than) (0, n))
    (fun s => snd s <= 2 /\ brackets array key s).
Proof.
  intros Hn Hfuel.
  apply returns_loop with
    (Inv := fun s => 1 <= snd s /\ brackets array key s)
    (mu := fun s => Z.to_nat (snd s));
    cbn [fst snd]; [| split; [lia | apply brackets_whole] | lia].
  intros [bot mid] (Hmid & Hw); cbn [fst snd] in *.
  pose proof Hw as (Hbot & _ & Hsum & _).
  unfold doubletapped_step. destruct (Z.gtb_spec mid 2) as [Hgt | Hle].
  - exec_deref x Hx; [divlia|]. exec_less.
    destruct (brackets_split bot mid (Z.quot mid 2) x Hw ltac:(divlia) Hx)
      as [Hup Hdown].
    destruct (Z.ltb_spec key x) as [Hkx | Hkx]; simpl; apply returns_ret;
      cbn [fst snd].
    + split; [split; [divlia | apply Hdown; exact Hkx] | divlia].
    + split; [split; [divlia|] | divlia].
      replace (Z.quot (mid + 1) 2) with (mid - Z.quot mid 2) by divlia.
      apply Hup; exact Hkx.
  - apply returns_ret. cbn [fst snd]. split; [lia | exact Hw].
Qed.

Lemma narrow_loop_brackets (fuel : nat) (bot top : Z) :
  brackets array key (bot, top) ->
  (Z.to_nat top < fuel)%nat ->
  returns n (loop fuel (narrow_step Z array less_than) (bot, top))
    (fun s => snd s <= 3 /\ brackets array key s).
Proof.
  intros Hw0 Hfuel.
  apply returns_loop with
    (Inv := brackets array key) (mu := fun s => Z.to_nat (snd s));
    cbn [fst snd]; [| exact Hw0 | lia].
  clear bot top Hw0 Hfuel.
  intros [bot top] Hw; cbn [fst snd] in *.
  pose proof Hw as (Hbot & _ & Hsum & _).
  unfold narrow_step. destruct (Z.gtb_spec top 3) as [Hgt | Hle].
  - exec_deref x Hx; [divlia|]. exec_less.
    destruct (brackets_split bot top (Z.quot top 2) x Hw ltac:(divlia) Hx)
      as [Hup Hdown].
    destruct (Z.ltb_spec key x) as [Hkx | Hkx]; simpl; apply returns_ret;
      cbn [fst snd].
    + split; [|divlia].
      apply brackets_widen with (top := Z.quot top 2);
        [apply Hdown; exact Hkx | divlia | divlia].
    + split; [apply Hup; exact Hkx | divlia].
  - apply returns_ret. cbn [fst snd]. split; [lia | exact Hw].
Qed.

Lemma quaternary_loop_brackets (fuel : nat) :
  (Z.to_nat n < fuel)%nat ->
  returns n (loop fuel (quaternary_step Z array less_than) (0, n))
    (brackets array key).
Proof.
  intros Hfuel.
  apply returns_loop with
    (Inv := brackets array key) (mu := fun s => Z.to_nat (snd s));
    cbn [fst snd]; [| apply brackets_whole | lia].
  intros [bot top] Hw; cbn [fst snd] in *.
  pose proof Hw as (Hbot & _ & Hsum & _).
  unfold quaternary_step. destruct (Z.geb_spec top 65536) as [Hge | Hlt].
  - set (mid := Z.quot top 4). assert (Hmid : 0 < mid /\ 4 * mid <= top)
      by (unfold mid; divlia).
    exec_deref x Hx; [lia|]. exec_less.
    destruct (brackets_split bot top (mid * 2) x Hw ltac:(lia) Hx)
      as [Hup Hdown].
    destruct (Z.ltb_spec key x) as [Hkx | Hkx].
    + specialize (Hdown Hkx).
      exec_deref y Hy; [lia|]. exec_less.
      destruct (brackets_split bot (mid * 2) mid y Hdown ltac:(lia) Hy)
        as [Hup' Hdown'].
      destruct (Z.ltb_spec key y) as [Hky | Hky]; cbn [negb];
        apply returns_ret; cbn [fst snd]; (split; [|lia]).
      * apply brackets_widen with (top := mid); [auto | lia | lia].
      * apply brackets_widen with (top := mid * 2 - mid); [auto | lia | lia].
    + specialize (Hup Hkx).
      exec_deref y Hy; [lia|]. exec_less.
      destruct (brackets_split (bot + mid * 2) (top - mid * 2) mid y Hup
                  ltac:(lia) Hy) as [Hup' Hdown'].
      destruct (Z.ltb_spec key y) as [Hky | Hky]; cbn [negb];
        apply returns_ret; cbn [fst snd]; (split; [|lia]).
      * apply brackets_widen with (top := mid); [auto | lia | lia].
      * replace (top - mid * 3) with (top - mid * 2 - mid) by lia. auto.
  - apply returns_ret. exact Hw.
Qed.

End KeyedSorted.

Lemma breaking_loop_stops (array : list Z) (key : Z) (fuel : nat) :
  is_sorted array = true ->
  0 < size array -> (Z.to_nat (size array) < fuel)%nat ->
  returns (size array)
    (loop fuel (breaking_step Z array (fun right => key <? right))
       (size array - 1))
    (fun k => 0 <= k < size array /\
              (forall j y, k < j -> at_offset array j y -> key < y) /\
              (k = 0 \/ exists x, at_offset array k x /\ x <= key)).
Proof.
  intros Hs Hn Hfuel.
  apply returns_loop with
    (Inv := fun k => 0 <= k < size array /\
                     forall j y, k < j -> at_offset array j y -> key < y)
    (mu := fun k => Z.to_nat k); [| split; [lia|] | lia].
  - intros k (Hk & Habove). unfold breaking_step, begin_.
    destruct (Z.gtb_spec k 0) as [Hgt | Hle].
    + exec_deref x Hx; [lia|]. exec_less.
      destruct (Z.ltb_spec key x) as [Hkx | Hkx]; apply returns_ret.
      * split; [split; [lia|] | lia].
        intros j y Hj Hy. destruct (Z.eq_dec j k) as [-> | Hne].
        -- rewrite (at_offset_unique _ _ _ _ Hy Hx). exact Hkx.
        -- apply (Habove j y); [lia | exact Hy].
      * split; [lia|]. split; [exact Habove|]. right. exists x. auto.
    + apply returns_ret. split; [lia|]. split; [exact Habove|]. left. lia.
  - intros j y Hj Hy. apply at_offset_bound in Hy. lia.
Qed.

Lemma breaking_linear_highest_array :
  forall (NDEBUG : bool) (array : list Z) (key : Z) (fuel : nat),
    is_sorted array = true ->
    (length array + 1 < fuel)%nat ->
    returns (size array)
      (breaking_linear_search NDEBUG array Z.ltb Z.eqb key fuel)
      (highest_match array (Z.eqb key)).
Proof.
  intros NDEBUG array key fuel Hs Hfuel.
  unfold breaking_linear_search, breaking_linear_search_base, begin_, end_.
  destruct (Z.eqb_spec 0 (size array)) as [Hz | Hnz].
  - apply returns_ret. right. split; [reflexivity|].
    intros j y Hy. apply at_offset_bound in Hy. lia.
  - assert (Hn : 0 < size array) by (unfold size in *; lia).
    exec_assert; [apply Z.ltb_lt; lia|].
    eapply returns_bind;
      [apply (breaking_loop_stops array key fuel Hs Hn); unfold size; lia|].
    intros k (Hk & Habove & Hstop).
    exec_deref x Hx; [exact Hk|]. exec_equal.
    apply returns_ret.
    destruct (Z.eqb_spec key x) as [<- | Hne].
    + left. exists key. split; [exact Hx|]. split; [apply Z.eqb_refl|].
      intros j y Hj Hy. apply Z.eqb_neq. specialize (Habove j y Hj Hy). lia.
    + right. split; [reflexivity|].
      intros j y Hy. apply Z.eqb_neq.
      destruct (Z_lt_le_dec k j) as [Hkj | Hjk].
      * specialize (Habove j y Hkj Hy). lia.
      * destruct (Z.eq_dec j k) as [-> | Hjne].
        -- rewrite (at_offset_unique _ _ _ _ Hy Hx). exact Hne.
        -- destruct Hstop as [-> | [x' [Hx' Hle]]].
           ++ apply at_offset_bound in Hy. lia.
           ++ rewrite (at_offset_unique _ _ _ _ Hx' Hx) in Hle.
              pose proof (sorted_at_offset array j k y x Hs Hjk Hy Hx). lia.
Qed.

(** X2.  On a sorted range of integers the keyed breaking linear search,
    taken at the natural [<] and [==], returns the highest offset whose
    element equals the key, and [end] when the key is absent. *)
Theorem breaking_linear_search_highest_match :
  forall (NDEBUG : bool) (array : list Z) (key : Z) (fuel : nat),
    is_sorted array = true ->
    (length array + 1 < fuel)%nat ->
    returns (size array)
      (breaking_linear_search NDEBUG array Z.ltb Z.eqb key fuel)
      (highest_match array (Z.eqb key)).
Proof. exact breaking_linear_highest_array. Qed.

Lemma breaking_linear_search_highest_match_witness :
  is_sorted [1; 2; 2; 2; 5] = true /\
  (length [1; 2; 2; 2; 5] + 1 < 7)%nat /\
  returns (size [1; 2; 2; 2; 5])
    (breaking_linear_search false [1; 2; 2; 2; 5] Z.ltb Z.eqb 2 7)
    (highest_match [1; 2; 2; 2; 5] (Z.eqb 2)).
Proof.
  split; [reflexivity|]. split; [simpl; lia|].
  apply (breaking_linear_search_highest_match false [1; 2; 2; 2; 5] 2 7);
    [reflexivity | simpl; lia].
Defined.

Lemma boundless_answers_array :
  forall (NDEBUG : bool) (array : list Z) (key : Z) (fuel : nat),
    is_sorted array = true ->
    (length array < fuel)%nat ->
    returns (size array)
      (boundless_binary_search NDEBUG array Z.ltb Z.eqb key fuel)
      (answers array key).
Proof.
  intros NDEBUG array key fuel Hs Hfuel.
  unfold boundless_binary_search, boundless_binary_search_base, begin_, end_.
  destruct (Z.eqb_spec 0 (size array)) as [Hz | Hnz].
  - apply returns_ret. split; [|reflexivity].
    intros Hin. apply In_at_offset in Hin. destruct Hin as [j Hj].
    apply at_offset_bound in Hj. lia.
  - assert (Hn : 0 < size array) by (unfold size in *; lia).
    exec_assert; [apply Z.ltb_lt; lia|].
    eapply returns_bind;
      [apply (boundless_loop_brackets array key Hs fuel Hn); unfold size; lia|].
    intros [bot mid] Hw; cbn [fst] in Hw.
    exec_deref x Hx; [destruct Hw as (? & ? & ? & _); lia|]. exec_equal.
    apply returns_ret. apply single_answers; assumption.
Qed.

(** X3.  On a sorted range of integers the keyed boundless binary search,
    taken at the natural [<] and [==], answers the lookup: an iterator to an
    element equal to the key when there is one, [end] otherwise. *)
Theorem boundless_binary_search_answers :
  forall (NDEBUG : bool) (array : list Z) (key : Z) (fuel : nat),
    is_sorted array = true ->
    (length array < fuel)%nat ->
    returns (size array)
      (boundless_binary_search NDEBUG array Z.ltb Z.eqb key fuel)
      (answers array key).
Proof. exact boundless_answers_array. Qed.

Lemma boundless_binary_search_answers_witness :
  is_sorted odds = true /\
  (length odds < 6)%nat /\
  returns (size odds)
    (boundless_binary_search false odds Z.ltb Z.eqb 7 6) (answers odds 7).
Proof.
  split; [reflexivity|]. split; [simpl; lia|].
  apply (boundless_binary_search_answers false odds 7 6);
    [reflexivity | simpl; lia].
Defined.

Lemma doubletapped_answers_array :
  forall (NDEBUG : bool) (array : list Z) (key : Z) (fuel : nat),
    is_sorted array = true ->
    array <> [] \/ NDEBUG = true ->
    (length array + 2 < fuel)%nat ->
    returns (size array)
      (doubletapped_binary_search NDEBUG array Z.ltb Z.eqb key fuel)
      (answers array key).
Proof.
  intros NDEBUG array key fuel Hs Hcase Hfuel.
  destruct array as [|a0 rest].
  - destruct Hcase as [Hne | ->]; [congruence|].
    destruct fuel as [|fuel]; [simpl in Hfuel; lia|].
    cbn. split; [|constructor].
    exists 0. split; [reflexivity|]. split; [contradiction | reflexivity].
  - set (array := a0 :: rest) in *.
    assert (Hn : 0 < size array) by (unfold size, array; simpl; lia).
    unfold doubletapped_binary_search, doubletapped_binary_search_base,
      begin_, end_.
    exec_assert; [apply Z.ltb_lt; lia|].
    eapply returns_bind;
      [apply (doubletapped_loop_brackets array key Hs fuel Hn); unfold size; lia|].
    intros [bot mid] [Hmid Hw]; cbn [snd] in Hmid.
    apply tap_answers; [exact Hw | lia].
Qed.

(** X4.  On a sorted range of integers the keyed doubletapped binary search,
    taken at the natural [<] and [==], answers the lookup, provided the
    range is not empty or the build is a release build. *)
Theorem doubletapped_binary_search_answers :
  forall (NDEBUG : bool) (array : list Z) (key : Z) (fuel : nat),
    is_sorted array = true ->
    array <> [] \/ NDEBUG = true ->
    (length array + 2 < fuel)%nat ->
    returns (size array)
      (doubletapped_binary_search NDEBUG array Z.ltb Z.eqb key fuel)
      (answers array key).
Proof. exact doubletapped_answers_array. Qed.

Lemma doubletapped_binary_search_answers_witness :
  is_sorted odds = true /\
  (odds <> [] \/ false = true) /\
  (length odds + 2 < 8)%nat /\
  returns (size odds)
    (doubletapped_binary_search false odds Z.ltb Z.eqb 7 8) (answers odds 7).
Proof.
  split; [reflexivity|]. split; [left; discriminate|]. split; [simpl; lia|].
  apply (doubletapped_binary_search_answers false odds 7 8);
    [reflexivity | left; discriminate | simpl; lia].
Defined.

Lemma quaternary_answers_array :
  forall (NDEBUG : bool) (array : list Z) (key : Z) (fuel : nat),
    is_sorted array = true ->
    (length array + 3 < fuel)%nat ->
    returns (size array)
      (monobound_quaternary_search NDEBUG array Z.ltb Z.eqb key fuel)
      (answers array key).
Proof.
  intros NDEBUG array key fuel Hs Hfuel.
  unfold monobound_quaternary_search, monobound_quaternary_search_base,
    begin_, end_.
  destruct (Z.eqb_spec 0 (size array)) as [Hz | Hnz].
  - apply returns_ret. split; [|reflexivity].
    intros Hin. apply In_at_offset in Hin. destruct Hin as [j Hj].
    apply at_offset_bound in Hj. lia.
  - assert (Hn : 0 < size array) by (unfold size in *; lia).
    exec_assert; [apply Z.ltb_lt; lia|].
    eapply returns_bind;
      [apply (quaternary_loop_brackets array key Hs fuel); unfold size; lia|].
    intros [bot top] Hw.
    pose proof Hw as (Hbot & Htop & Hsum & _).
    eapply returns_bind;
      [apply (narrow_loop_brackets array key Hs fuel bot top Hw);
       unfold size in *; lia|].
    intros [bot' top'] [Htop' Hw']; cbn [snd] in Htop'.
    apply tap_answers; [exact Hw' | lia].
Qed.

(** X5.  On a sorted range of integers of any size, below or above the
    65536-element threshold, the keyed monobound quaternary search, taken at
    the natural [<] and [==], answers the lookup. *)
Theorem monobound_quaternary_search_answers :
  forall (NDEBUG : bool) (array : list Z) (key : Z) (fuel : nat),
    is_sorted array = true ->
    (length array + 3 < fuel)%nat ->
    returns (size array)
      (monobound_quaternary_search NDEBUG array Z.ltb Z.eqb key fuel)
      (answers array key).
Proof. exact quaternary_answers_array. Qed.

Lemma monobound_quaternary_search_answers_witness :
  is_sorted odds = true /\
  (length odds + 3 < 9)%nat /\
  returns (size odds)
    (monobound_quaternary_search false odds Z.ltb Z.eqb 7 9) (answers odds 7).
Proof.
  split; [reflexivity|]. split; [simpl; lia|].
  apply (monobound_quaternary_search_answers false odds 7 9);
    [reflexivity | simpl; lia].
Defined.


(** ** Partial correctness and comparison counts *)

Lemma ensures_ret {A} (a : A) (P : A -> Prop) : P a -> ensures (ret a) P.
Proof. intros Ha a' H. injection H as <-. exact Ha. Qed.

Lemma ensures_bind {A B} (m : M A) (k : A -> M B)
  (P : A -> Prop) (Q : B -> Prop) :
  ensures m P -> (forall a, P a -> ensures (k a) Q) -> ensures (bind m k) Q.
Proof.
  intros Hm Hk b Hb. apply outcome_bind_inv in Hb.
  destruct Hb as [a [Ha Hb]]. exact (Hk a (Hm a Ha) b Hb).
Qed.

Lemma ensures_deref {T} (array : list T) (j : Z) :
  ensures (deref array j) (at_offset array j).
Proof.
  intros x. unfold deref, at_offset.
  destruct (Z.leb_spec 0 j) as [Hj | Hj]; cbn [andb]; [|discriminate].
  destruct (j <? size array); [|discriminate].
  destruct (nth_error array (Z.to_nat j)) as [y|]; [|discriminate].
  cbn. intros Hy. injection Hy as <-. auto.
Qed.

Lemma ensures_call_less {T} (less_than : T -> bool) (x : T) :
  ensures (call_less T less_than x) (fun b => b = less_than x).
Proof. intros b H. cbn in H. congruence. Qed.

Lemma ensures_call_equal {T} (equal_to : T -> bool) (x : T) :
  ensures (call_equal T equal_to x) (fun b => b = equal_to x).
Proof. intros b H. cbn in H. congruence. Qed.

Lemma accesses_bind_value {A B} (a : A) (t : trace) (k : A -> M B) :
  accesses (bind (Ret a, t) k) = t ++ accesses (k a).
Proof. unfold bind, accesses. destruct (k a); reflexivity. Qed.

Lemma less_calls_app (t1 t2 : trace) :
  less_calls (t1 ++ t2) = less_calls t1 + less_calls t2.
Proof.
  induction t1 as [|e t1 IH]; [reflexivity|].
  destruct e; cbn [app less_calls]; lia.
Qed.

Lemma equal_calls_app (t1 t2 : trace) :
  equal_calls (t1 ++ t2) = equal_calls t1 + equal_calls t2.
Proof.
  induction t1 as [|e t1 IH]; [reflexivity|].
  destruct e; cbn [app equal_calls]; lia.
Qed.

Section Counting.

(** A counter of events: additive over traces. *)
Variable c : trace -> Z.
Hypothesis c_nil : c [] = 0.
Hypothesis c_app : forall t1 t2, c (t1 ++ t2) = c t1 + c t2.

Lemma bounded_ret {A} (a : A) (P : A -> Prop) : P a -> bounded c (ret a) P 0.
Proof.
  intros Ha. split; [cbn; rewrite c_nil; lia | apply ensures_ret; exact Ha].
Qed.

Lemma bounded_bind {A B} (m : M A) (k : A -> M B)
  (P : A -> Prop) (Q : B -> Prop) (b1 b2 : Z) :
  bounded c m P b1 -> 0 <= b2 ->
  (forall a, P a -> bounded c (k a) Q b2) ->
  bounded c (bind m k) Q (b1 + b2).
Proof.
  intros [Hc Hm] Hb2 Hk. split.
  - destruct m as [[a|f] t].
    + rewrite accesses_bind_value, c_app. cbn in Hc.
      destruct (Hk a (Hm a eq_refl)) as [Hc' _]. lia.
    + cbn in *. lia.
  - eapply ensures_bind; [exact Hm|]. intros a Ha. apply (Hk a Ha).
Qed.

Lemma bounded_weaken {A} (m : M A) (P Q : A -> Prop) (b b' : Z) :
  bounded c m P b -> b <= b' -> (forall a, P a -> Q a) -> bounded c m Q b'.
Proof.
  intros [Hc Hm] Hb HPQ. split; [lia|]. intros a Ha. apply HPQ, Hm, Ha.
Qed.

(** The loop rule: every iteration pays at most what it takes off the
    potential [mu]; no fuel condition, the count bounds any prefix of the
    run. *)
Lemma bounded_loop {S R} (step : S -> M (S + R))
  (Inv : S -> Prop) (mu : S -> Z) (Q : R -> Prop) :
  (forall s, Inv s ->
     exists b, 0 <= b <= mu s /\
       bounded c (step s)
         (fun x => match x with
                   | inl s' => Inv s' /\ b + mu s' <= mu s
                   | inr r => Q r
                   end) b) ->
  forall fuel s, Inv s -> bounded c (loop fuel step s) Q (mu s).
Proof.
  intros Hstep fuel. induction fuel as [|fuel IH]; intros s Hs.
  - destruct (Hstep s Hs) as [b [Hb _]].
    split; [cbn; rewrite c_nil; lia | intros a H; discriminate].
  - destruct (Hstep s Hs) as [b [Hb [Hc Hens]]].
    cbn [loop]. split.
    + destruct (step s) as [[x|f] t] eqn:Hx.
      * rewrite accesses_bind_value, c_app. cbn in Hc.
        specialize (Hens x eq_refl). destruct x as [s'|r].
        -- destruct Hens as [Hs' Hmu]. destruct (IH s' Hs') as [Hc' _]. lia.
        -- cbn. rewrite c_nil. lia.
      * cbn in *. lia.
    + eapply ensures_bind; [exact Hens|].
      intros [s'|r] Hx';
        [apply IH; tauto | apply ensures_ret; exact Hx'].
Qed.

End Counting.

(** ** standard_binary_search: what it does when it returns, and when not *)

Lemma at_offset_exists {T} (array : list T) (j : Z) :
  0 <= j < size array -> exists x, at_offset array j x.
Proof.
  intros Hj. unfold size in Hj.
  destruct (nth_error array (Z.to_nat j)) as [x|] eqn:Hx.
  - exists x. split; [lia | exact Hx].
  - apply nth_error_None in Hx. lia.
Qed.

Lemma standard_loop_never_exits {T} (array : list T) (less_than : T -> bool) :
  (forall x, In x array -> less_than x = false) ->
  forall (fuel : nat) (low : Z),
    0 <= low < size array - 1 ->
    outcome (loop fuel (standard_step T array less_than) (low, size array - 1))
    = Fault OutOfFuel.
Proof.
  intros Hlt fuel. induction fuel as [|fuel IH]; intros low Hlow; [reflexivity|].
  set (high := size array - 1) in *.
  set (mid := low + Z.quot (high - low) 2).
  assert (Hmid : low <= mid < high) by (unfold mid; divlia).
  destruct (at_offset_exists array mid ltac:(unfold high in *; lia)) as [x Hx].
  rewrite outcome_loop_continue with (s' := (mid, high)) (t := [Deref mid; Less]).
  - apply IH. lia.
  - unfold standard_step.
    replace (low <? high) with true by (symmetry; apply Z.ltb_lt; lia).
    fold mid. rewrite (deref_at _ _ _ Hx). unfold call_less. cbn.
    rewrite (Hlt x (at_offset_In _ _ _ Hx)). reflexivity.
Qed.

(** X6.  On a range of two or more elements, when [less_than] holds of no
    element (with the natural order: the key is at or above the maximum, for
    instance the last element itself), the standard binary search never
    returns: [high] stays at the last element and [low] stays below it. *)
Theorem standard_binary_search_hangs_at_top :
  forall (T : Type) (NDEBUG : bool) (array : list T)
         (less_than equal_to : T -> bool) (fuel : nat),
    (2 <= length array)%nat ->
    (forall x, In x array -> less_than x = false) ->
    outcome (standard_binary_search_base NDEBUG array less_than equal_to fuel)
    = Fault OutOfFuel.
Proof.
  intros T NDEBUG array less_than equal_to fuel Hlen Hlt.
  assert (Hn : 2 <= size array) by (unfold size; lia).
  unfold standard_binary_search_base, begin_, end_.
  destruct (Z.eqb_spec 0 (size array)) as [Hz | _]; [lia|].
  replace (0 <? size array) with true by (symmetry; apply Z.ltb_lt; lia).
  rewrite assert_holds, bind_ret_l.
  apply outcome_bind_fault.
  apply standard_loop_never_exits; [exact Hlt | lia].
Qed.

Lemma standard_binary_search_hangs_at_top_witness :
  (2 <= length odds)%nat /\
  (forall x, In x odds -> (9 <? x) = false) /\
  outcome (standard_binary_search_base false odds (Z.ltb 9) (Z.eqb 9) 100)
  = Fault OutOfFuel.
Proof.
  assert (H : forall x, In x odds -> (9 <? x) = false).
  { intros x Hx. simpl in Hx.
    repeat (destruct Hx as [<- | Hx]; [reflexivity|]). contradiction. }
  split; [simpl; lia|]. split; [exact H|].
  apply (standard_binary_search_hangs_at_top Z false odds (Z.ltb 9) (Z.eqb 9) 100);
    [simpl; lia | exact H].
Defined.

Lemma returns_spins {A} (n : Z) (m : M A) (Q : A -> Prop) :
  returns n m Q -> returns_or_spins n m Q.
Proof. intros [Hm Htr]. split; [right; exact Hm | exact Htr]. Qed.

Lemma returns_or_spins_bind {A B} (n : Z) (m : M A) (k : A -> M B)
  (P : A -> Prop) (Q : B -> Prop) :
  returns_or_spins n m P ->
  (forall a, P a -> returns_or_spins n (k a) Q) ->
  returns_or_spins n (bind m k) Q.
Proof.
  intros [[Hspin | [a [Hm Pa]]] Htr] Hk.
  - destruct m as [[a|f] t]; cbn in Hspin; [discriminate|].
    split; [left; cbn; congruence | exact Htr].
  - destruct m as [r t]; cbn in Hm, Htr; subst r.
    destruct (Hk a Pa) as [Hout Htr'].
    split.
    + rewrite outcome_bind_value. exact Hout.
    + rewrite accesses_bind_value. apply Forall_app; auto.
Qed.

Lemma returns_or_spins_loop {S R} (n : Z) (step : S -> M (S + R))
  (Inv : S -> Prop) (Q : R -> Prop) :
  (forall s, Inv s ->
     returns_or_spins n (step s)
       (fun x => match x with inl s' => Inv s' | inr r => Q r end)) ->
  forall fuel s, Inv s -> returns_or_spins n (loop fuel step s) Q.
Proof.
  intros Hstep fuel. induction fuel as [|fuel IH]; intros s Hs.
  - split; [left; reflexivity | constructor].
  - cbn [loop]. eapply returns_or_spins_bind; [apply Hstep; exact Hs|].
    intros [s'|r] Hx;
      [apply IH; exact Hx
      | split; [right; exists r; split; [reflexivity | exact Hx] | constructor]].
Qed.

(** X7.  On a sorted range of integers whose first element is not above the
    key, the keyed standard binary search (at the natural [<] and [==])
    never reads outside the range, whatever the fuel; and a call either
    never returns or returns an iterator that answers the lookup. *)
Theorem standard_binary_search_partially_correct :
  forall (NDEBUG : bool) (array : list Z) (key first : Z) (fuel : nat),
    is_sorted array = true ->
    at_offset array 0 first ->
    first <= key ->
    returns_or_spins (size array)
      (standard_binary_search NDEBUG array Z.ltb Z.eqb key fuel)
      (answers array key).
Proof.
  intros NDEBUG array key first fuel Hs Hfirst Hle.
  pose proof (at_offset_bound _ _ _ Hfirst) as Hn.
  unfold standard_binary_search, standard_binary_search_base, begin_, end_.
  destruct (Z.eqb_spec 0 (size array)) as [Hz | _]; [lia|].
  eapply returns_or_spins_bind;
    [apply returns_spins, returns_assert, Z.ltb_lt; lia|]. intros _ _.
  eapply returns_or_spins_bind.
  - apply returns_or_spins_loop with
      (Inv := fun s =>
         0 <= fst s <= snd s /\ snd s < size array /\
         (forall j y, snd s < j -> at_offset array j y -> key < y) /\
         (exists x, at_offset array (fst s) x /\ x <= key))
      (Q := fun s =>
         fst s = snd s /\
         (forall j y, snd s < j -> at_offset array j y -> key < y) /\
         (exists x, at_offset array (fst s) x /\ x <= key)).
    + intros [low high] (Hlow & Hhigh & Habove & x0 & Hx0 & Hx0le);
        cbn [fst snd] in *.
      unfold standard_step.
      destruct (Z.ltb_spec low high) as [Hlt | Hge].
      * set (mid := low + Z.quot (high - low) 2).
        assert (Hmid : low <= mid < high) by (unfold mid; divlia).
        eapply returns_or_spins_bind;
          [apply returns_spins, returns_deref; lia|]. intros x Hx.
        eapply returns_or_spins_bind;
          [apply returns_spins, returns_call_less|]. intros b ->.
        destruct (Z.ltb_spec key x) as [Hkx | Hkx];
          apply returns_spins, returns_ret; cbn [fst snd].
        -- assert (Hneq : mid <> low).
           { intros Heq. rewrite Heq in Hx.
             rewrite (at_offset_unique _ _ _ _ Hx Hx0) in Hkx. lia. }
           split; [lia|]. split; [lia|]. split; [|exists x0; auto].
           intros j y Hj Hy. destruct (Z_lt_le_dec high j) as [Hhj | Hjh].
           ++ apply (Habove j y Hhj Hy).
           ++ pose proof (sorted_at_offset array mid j x y Hs ltac:(lia) Hx Hy).
              lia.
        -- split; [lia|]. split; [lia|]. split; [exact Habove|].
           exists x. auto.
      * apply returns_spins, returns_ret. cbn [fst snd].
        split; [lia|]. split; [exact Habove|]. exists x0. auto.
    + cbn [fst snd]. split; [lia|]. split; [lia|]. split.
      * intros j y Hj Hy. apply at_offset_bound in Hy. lia.
      * exists first. auto.
  - intros [low high] (Heq & Habove & x0 & Hx0 & Hx0le); cbn [fst snd] in *.
    subst low.
    eapply returns_or_spins_bind;
      [apply returns_spins, returns_deref;
       apply at_offset_bound in Hx0; exact Hx0|]. intros x Hx.
    eapply returns_or_spins_bind;
      [apply returns_spins, returns_call_equal|]. intros b ->.
    apply returns_spins, returns_ret.
    rewrite (at_offset_unique _ _ _ _ Hx0 Hx) in Hx0le.
    destruct (Z.eqb_spec key x) as [<- | Hne]; split.
    + intros _. exact Hx.
    + intros Hnot. exfalso. apply Hnot. eapply at_offset_In; eauto.
    + intros Hin. exfalso. apply In_at_offset in Hin.
      destruct Hin as [j Hj].
      destruct (Z_lt_le_dec high j) as [Hhj | Hjh];
        [specialize (Habove j key Hhj Hj); lia|].
      pose proof (sorted_at_offset array j high key x Hs Hjh Hj Hx). lia.
    + reflexivity.
Qed.

Lemma standard_binary_search_partially_correct_witness :
  is_sorted odds = true /\
  at_offset odds 0 1 /\
  1 <= 6 /\
  returns_or_spins (size odds)
    (standard_binary_search false odds Z.ltb Z.eqb 6 10) (answers odds 6).
Proof.
  split; [reflexivity|].
  split; [split; [lia | reflexivity]|].
  split; [lia|].
  apply (standard_binary_search_partially_correct false odds 6 1 10);
    [reflexivity | split; [lia | reflexivity] | lia].
Defined.

(** X8.  On a range of exactly two elements whose first element satisfies
    [less_than] (with the natural order: the key is below the minimum), the
    standard binary search moves [high] to [begin - 1] and dereferences it:
    an access before the range. *)
Theorem standard_binary_search_reads_before_begin :
  forall (T : Type) (NDEBUG : bool) (x y : T)
         (less_than equal_to : T -> bool) (fuel : nat),
    less_than x = true ->
    standard_binary_search_base NDEBUG [x; y] less_than equal_to (2 + fuel)
    = (Fault (OutOfRange (-1)), [Deref 0; Less; Deref (-1)]).
Proof.
  intros T NDEBUG x y less_than equal_to fuel Hx.
  unfold standard_binary_search_base.
  change (begin_ =? end_ [x; y]) with false. cbv iota.
  change (begin_ <? end_ [x; y]) with true.
  rewrite assert_holds, bind_ret_l.
  cbn. rewrite Hx. reflexivity.
Qed.

Lemma standard_binary_search_reads_before_begin_witness :
  (0 <? 1) = true /\
  standard_binary_search_base false [1; 3] (Z.ltb 0) (Z.eqb 0) (2 + 0)
  = (Fault (OutOfRange (-1)), [Deref 0; Less; Deref (-1)]).
Proof.
  split; [reflexivity|].
  apply (standard_binary_search_reads_before_begin Z false 1 3 (Z.ltb 0) (Z.eqb 0) 0).
  reflexivity.
Defined.

(** ** Comparison counts of the halving searches *)

Lemma log2_up_half (m : Z) :
  1 < m -> Z.log2_up ((m + 1) / 2) + 1 <= Z.log2_up m.
Proof.
  intros Hm. pose proof (Z.log2_up_spec m Hm) as [_ Hle].
  pose proof (Z.log2_up_pos m Hm) as Hpos.
  set (k := Z.log2_up m) in *.
  assert (Hpow : 2 ^ k = 2 * 2 ^ (k - 1)).
  { replace k with (Z.succ (k - 1)) at 1 by lia. apply Z.pow_succ_r. lia. }
  assert (Hhalf : (m + 1) / 2 <= 2 ^ (k - 1)) by divlia.
  apply (Z.log2_up_le_pow2 ((m + 1) / 2) (k - 1)) in Hhalf; [lia | divlia].
Qed.

Lemma log2_up_shrinks (m m' : Z) :
  1 < m -> m' <= (m + 1) / 2 -> Z.log2_up m' + 1 <= Z.log2_up m.
Proof.
  intros Hm Hle. pose proof (log2_up_half m Hm).
  pose proof (Z.log2_up_le_mono _ _ Hle). lia.
Qed.

Section CountingRules.

Variable c : trace -> Z.
Hypothesis c_nil : c [] = 0.
Hypothesis c_app : forall t1 t2, c (t1 ++ t2) = c t1 + c t2.

Context {T : Type}.
Variable NDEBUG : bool.
Variable array : list T.

Lemma bounded_seq {A B} (m : M A) (k : A -> M B)
  (P : A -> Prop) (Q : B -> Prop) (b1 b2 b : Z) :
  bounded c m P b1 ->
  (forall a, P a -> bounded c (k a) Q b2) ->
  0 <= b2 -> b1 + b2 <= b ->
  bounded c (bind m k) Q b.
Proof.
  intros Hm Hk Hb2 Hb.
  apply bounded_weaken with (P := Q) (b := b1 + b2); auto.
  apply bounded_bind with (P := P); auto.
Qed.

Lemma bounded_deref (j : Z) :
  bounded c (deref array j) (at_offset array j) (c [Deref j]).
Proof.
  split; [|apply ensures_deref].
  unfold deref. destruct ((0 <=? j) && (j <? size array)); [|cbn; lia].
  destruct (nth_error array (Z.to_nat j)); cbn; lia.
Qed.

Lemma bounded_call_less (less_than : T -> bool) (x : T) :
  bounded c (call_less T less_than x) (fun b => b = less_than x) (c [Less]).
Proof. split; [cbn; lia | apply ensures_call_less]. Qed.

Lemma bounded_call_equal (equal_to : T -> bool) (x : T) :
  bounded c (call_equal T equal_to x) (fun b => b = equal_to x) (c [Equal]).
Proof. split; [cbn; lia | apply ensures_call_equal]. Qed.

Lemma bounded_assert (b : bool) :
  bounded c (assert NDEBUG b) (fun _ => True) 0.
Proof.
  split; [|intros u _; exact I].
  unfold assert. destruct NDEBUG; [|destruct b]; cbn; rewrite c_nil; lia.
Qed.

End CountingRules.

Ltac count_side :=
  first [ reflexivity | exact less_calls_app | exact equal_calls_app
        | assumption | lia | cbn; lia ].

Ltac count_seq c cost1 cost2 :=
  eapply (bounded_seq c) with (b1 := cost1) (b2 := cost2);
  try solve [count_side].

Section HalvingCounts.

(** A counter that charges [c [Less]] per [less_than] call, [c [Equal]] per
    [equal_to] call and nothing for a dereference. *)
Variable c : trace -> Z.
Hypothesis c_nil : c [] = 0.
Hypothesis c_app : forall t1 t2, c (t1 ++ t2) = c t1 + c t2.
Hypothesis c_deref : forall j, c [Deref j] = 0.
Hypothesis c_less : 0 <= c [Less].
Hypothesis c_equal : 0 <= c [Equal].

Context {T : Type}.
Variable NDEBUG : bool.
Variable array : list T.
Variable less_than : T -> bool.
Variable equal_to : T -> bool.

Local Abbreviation n := (size array).

Lemma boundless_loop_count (fuel : nat) (bot mid : Z) :
  0 <= mid ->
  bounded c (loop fuel (boundless_step T array less_than) (bot, mid))
    (fun _ => True) (c [Less] * Z.log2_up mid).
Proof.
  intros Hmid.
  eapply (bounded_loop c) with
    (Inv := fun s => 0 <= snd s) (mu := fun s => c [Less] * Z.log2_up (snd s));
    try solve [count_side].
  clear bot mid Hmid. intros [bot mid] Hmid; cbn [fst snd] in *.
  unfold boundless_step. destruct (Z.gtb_spec mid 1) as [Hgt | Hle].
  - pose proof (log2_up_shrinks mid (Z.quot (mid + 1) 2) Hgt ltac:(divlia)).
    pose proof (log2_up_shrinks mid (Z.quot mid 2) Hgt ltac:(divlia)).
    pose proof (Z.log2_up_nonneg (Z.quot (mid + 1) 2)).
    pose proof (Z.log2_up_nonneg (Z.quot mid 2)).
    exists (c [Less]). split; [nia|].
    count_seq c 0 (c [Less]);
      [rewrite <- (c_deref (bot + Z.quot mid 2)); apply bounded_deref|].
    intros x Hx. count_seq c (c [Less]) 0; [apply bounded_call_less|].
    intros b ->. destruct (less_than x); simpl; apply bounded_ret; auto;
      cbn [fst snd]; split; try divlia; nia.
  - exists 0. split; [pose proof (Z.log2_up_nonneg mid); nia|].
    apply bounded_ret; auto.
Qed.

Lemma doubletapped_loop_count (fuel : nat) (bot mid : Z) :
  0 <= mid ->
  bounded c (loop fuel (doubletapped_step T array less_than) (bot, mid))
    (fun s => 0 <= snd s <= 2) (c [Less] * Z.log2_up mid).
Proof.
  intros Hmid.
  eapply (bounded_loop c) with
    (Inv := fun s => 0 <= snd s) (mu := fun s => c [Less] * Z.log2_up (snd s));
    try solve [count_side].
  clear bot mid Hmid. intros [bot mid] Hmid; cbn [fst snd] in *.
  unfold doubletapped_step. destruct (Z.gtb_spec mid 2) as [Hgt | Hle].
  - pose proof (log2_up_shrinks mid (Z.quot (mid + 1) 2) ltac:(lia) ltac:(divlia)).
    pose proof (log2_up_shrinks mid (Z.quot mid 2) ltac:(lia) ltac:(divlia)).
    pose proof (Z.log2_up_nonneg (Z.quot (mid + 1) 2)).
    pose proof (Z.log2_up_nonneg (Z.quot mid 2)).
    exists (c [Less]). split; [nia|].
    count_seq c 0 (c [Less]);
      [rewrite <- (c_deref (bot + Z.quot mid 2)); apply bounded_deref|].
    intros x Hx. count_seq c (c [Less]) 0; [apply bounded_call_less|].
    intros b ->. destruct (less_than x); simpl; apply bounded_ret; auto;
      cbn [fst snd]; split; try divlia; nia.
  - exists 0. split; [pose proof (Z.log2_up_nonneg mid); nia|].
    apply bounded_ret; auto; cbn [snd]; lia.
Qed.

Lemma monobound_loop_count (fuel : nat) (low high : Z) :
  0 <= high ->
  bounded c (loop fuel (monobound_step T array less_than) (low, high))
    (fun _ => True) (c [Less] * Z.log2_up high).
Proof.
  intros Hhigh.
  eapply (bounded_loop c) with
    (Inv := fun s => 0 <= snd s) (mu := fun s => c [Less] * Z.log2_up (snd s));
    try solve [count_side].
  clear low high Hhigh. intros [low high] Hhigh; cbn [fst snd] in *.
  unfold monobound_step, begin_. rewrite Z.sub_0_r, !Z.add_0_l.
  destruct (Z.gtb_spec high 1) as [Hgt | Hle].
  - pose proof (log2_up_shrinks high (high - Z.quot high 2) Hgt ltac:(divlia)).
    pose proof (Z.log2_up_nonneg (high - Z.quot high 2)).
    exists (c [Less]). split; [nia|].
    count_seq c 0 (c [Less]);
      [rewrite <- (c_deref (Z.quot high 2)); apply bounded_deref|].
    intros x Hx. count_seq c (c [Less]) 0; [apply bounded_call_less|].
    intros b ->. apply bounded_ret; auto.
    cbn [fst snd]; split; try divlia; nia.
  - exists 0. split; [pose proof (Z.log2_up_nonneg high); nia|].
    apply bounded_ret; auto.
Qed.

Lemma narrow_loop_count (fuel : nat) (bot top : Z) :
  0 <= top ->
  bounded c (loop fuel (narrow_step T array less_than) (bot, top))
    (fun s => 0 <= snd s <= 3) (c [Less] * Z.log2_up top).
Proof.
  intros Htop.
  eapply (bounded_loop c) with
    (Inv := fun s => 0 <= snd s) (mu := fun s => c [Less] * Z.log2_up (snd s));
    try solve [count_side].
  clear bot top Htop. intros [bot top] Htop; cbn [fst snd] in *.
  unfold narrow_step. destruct (Z.gtb_spec top 3) as [Hgt | Hle].
  - pose proof (log2_up_shrinks top (top - Z.quot top 2) ltac:(lia) ltac:(divlia)).
    pose proof (Z.log2_up_nonneg (top - Z.quot top 2)).
    exists (c [Less]). split; [nia|].
    count_seq c 0 (c [Less]);
      [rewrite <- (c_deref (bot + Z.quot top 2)); apply bounded_deref|].
    intros x Hx. count_seq c (c [Less]) 0; [apply bounded_call_less|].
    intros b ->. apply bounded_ret; auto.
    cbn [fst snd]; split; try divlia; nia.
  - exists 0. split; [pose proof (Z.log2_up_nonneg top); nia|].
    apply bounded_ret; auto; cbn [snd]; lia.
Qed.

Lemma tap_loop_count (fuel : nat) (bot k : Z) :
  0 <= k ->
  bounded c (loop fuel (tap_step T array equal_to bot) k)
    (fun _ => True) (c [Equal] * k).
Proof.
  intros Hk.
  eapply (bounded_loop c) with
    (Inv := fun s => 0 <= s) (mu := fun s => c [Equal] * s);
    try solve [count_side].
  clear k Hk. intros k Hk. unfold tap_step.
  destruct (Z.eqb_spec k 0) as [-> | Hk0]; cbn [negb].
  - exists 0. split; [lia|]. apply bounded_ret; auto.
  - exists (c [Equal]). split; [nia|].
    count_seq c 0 (c [Equal]);
      [rewrite <- (c_deref (bot + (k - 1))); apply bounded_deref|].
    intros x Hx. count_seq c (c [Equal]) 0; [apply bounded_call_equal|].
    intros b ->. destruct (equal_to x); apply bounded_ret; auto.
    split; [lia | nia].
Qed.

End HalvingCounts.

Section SearchCounts.

Variable c : trace -> Z.
Hypothesis c_nil : c [] = 0.
Hypothesis c_app : forall t1 t2, c (t1 ++ t2) = c t1 + c t2.
Hypothesis c_deref : forall j, c [Deref j] = 0.
Hypothesis c_less : 0 <= c [Less].
Hypothesis c_equal : 0 <= c [Equal].

Context {T : Type}.
Variable NDEBUG : bool.
Variable array : list T.
Variable less_than : T -> bool.
Variable equal_to : T -> bool.
Variable fuel : nat.

Local Abbreviation n := (size array).
Local Abbreviation halvings := (c [Less] * Z.log2_up (size array)).

Lemma size_nonneg : 0 <= n.
Proof. unfold size. lia. Qed.

Lemma halvings_nonneg : 0 <= halvings.
Proof. pose proof (Z.log2_up_nonneg n). nia. Qed.

Lemma bounded_ret_le {A} (a : A) (b : Z) :
  0 <= b -> bounded c (ret a) (fun _ => True) b.
Proof.
  intros Hb. split; [cbn; rewrite c_nil; exact Hb | intros a' _; exact I].
Qed.

Lemma boundless_count :
  bounded c (boundless_binary_search_base NDEBUG array less_than equal_to fuel)
    (fun _ => True) (halvings + c [Equal]).
Proof.
  pose proof halvings_nonneg. pose proof size_nonneg.
  unfold boundless_binary_search_base.
  destruct (begin_ =? end_ array).
  - apply bounded_ret_le. lia.
  - count_seq c 0 ((c [Less] * Z.log2_up (size array)) + c [Equal]); [apply bounded_assert; auto|].
    intros _ _.
    count_seq c (c [Less] * Z.log2_up (size array)) (c [Equal]);
      [eapply (boundless_loop_count c); solve [count_side]|].
    intros [bot mid] _.
    count_seq c 0 (c [Equal]);
      [rewrite <- (c_deref bot); apply bounded_deref|].
    intros x _. count_seq c (c [Equal]) 0; [apply bounded_call_equal|].
    intros b _. apply bounded_ret; auto.
Qed.

Lemma doubletapped_count :
  bounded c (doubletapped_binary_search_base NDEBUG array less_than equal_to fuel)
    (fun _ => True) (halvings + c [Equal] * 2).
Proof.
  pose proof halvings_nonneg. pose proof size_nonneg.
  unfold doubletapped_binary_search_base.
  count_seq c 0 ((c [Less] * Z.log2_up (size array)) + c [Equal] * 2); [apply bounded_assert; auto|].
  intros _ _.
  count_seq c (c [Less] * Z.log2_up (size array)) (c [Equal] * 2);
    [eapply (doubletapped_loop_count c); solve [count_side]|].
  intros [bot mid] Hmid; cbn [snd] in Hmid.
  eapply (bounded_weaken c);
    [eapply (tap_loop_count c); solve [count_side] | nia | auto].
Qed.

Lemma monobound_count :
  bounded c (monobound_binary_search_base NDEBUG array less_than equal_to fuel)
    (fun _ => True) (halvings + c [Equal]).
Proof.
  pose proof halvings_nonneg. pose proof size_nonneg.
  unfold monobound_binary_search_base.
  destruct (begin_ =? end_ array).
  - apply bounded_ret_le. lia.
  - count_seq c 0 ((c [Less] * Z.log2_up (size array)) + c [Equal]); [apply bounded_assert; auto|].
    intros _ _.
    count_seq c (c [Less] * Z.log2_up (size array)) (c [Equal]);
      [eapply (monobound_loop_count c); solve [count_side]|].
    intros [low high] _.
    count_seq c 0 (c [Equal]);
      [rewrite <- (c_deref low); apply bounded_deref|].
    intros x _. count_seq c (c [Equal]) 0; [apply bounded_call_equal|].
    intros b _. apply bounded_ret; auto.
Qed.

Lemma tripletapped_tap_count (bot top : Z) :
  bounded c (loop fuel (tripletapped_tap_step T array equal_to bot top) 0)
    (fun _ => True) 0.
Proof.
  destruct fuel as [|fuel']; (split; [cbn; rewrite c_nil; lia | intros a _; exact I]).
Qed.

Lemma tripletapped_count :
  bounded c (tripletapped_binary_search_base NDEBUG array less_than equal_to fuel)
    (fun _ => True) halvings.
Proof.
  pose proof halvings_nonneg. pose proof size_nonneg.
  unfold tripletapped_binary_search_base.
  destruct (begin_ =? end_ array).
  - apply bounded_ret_le. lia.
  - count_seq c 0 (c [Less] * Z.log2_up (size array)); [apply bounded_assert; auto|].
    intros _ _.
    count_seq c (c [Less] * Z.log2_up (size array)) 0;
      [eapply (narrow_loop_count c); solve [count_side]|].
    intros [bot top] _. apply tripletapped_tap_count.
Qed.

End SearchCounts.

(** X9.  Whatever the range, the predicates, the build and the fuel, the
    boundless, doubletapped, monobound and tripletapped searches call
    [less_than] at most [ceil(log2 size)] times; they call [equal_to] at
    most once (boundless, monobound), at most twice (doubletapped), and
    never (tripletapped). *)
Theorem halving_searches_comparison_counts :
  forall (T : Type) (NDEBUG : bool) (array : list T)
         (less_than equal_to : T -> bool) (fuel : nat),
    let log := Z.log2_up (size array) in
    let less (m : M Z) := less_calls (accesses m) in
    let equal (m : M Z) := equal_calls (accesses m) in
    let boundless :=
      boundless_binary_search_base NDEBUG array less_than equal_to fuel in
    let doubletapped :=
      doubletapped_binary_search_base NDEBUG array less_than equal_to fuel in
    let monobound :=
      monobound_binary_search_base NDEBUG array less_than equal_to fuel in
    let tripletapped :=
      tripletapped_binary_search_base NDEBUG array less_than equal_to fuel in
    (less boundless <= log /\ equal boundless <= 1) /\
    (less doubletapped <= log /\ equal doubletapped <= 2) /\
    (less monobound <= log /\ equal monobound <= 1) /\
    (less tripletapped <= log /\ equal tripletapped <= 0).
Proof.
  intros T NDEBUG array less_than equal_to fuel. cbv zeta.
  assert (Hl : forall (m : M Z) b,
             bounded less_calls m (fun _ => True)
               (less_calls [Less] * Z.log2_up (size array)
                + less_calls [Equal] * b) ->
             less_calls (accesses m) <= Z.log2_up (size array))
    by (intros m b [H _]; change (less_calls [Less]) with 1 in H;
        change (less_calls [Equal]) with 0 in H; lia).
  assert (He : forall (m : M Z) b,
             bounded equal_calls m (fun _ => True)
               (equal_calls [Less] * Z.log2_up (size array)
                + equal_calls [Equal] * b) ->
             equal_calls (accesses m) <= b)
    by (intros m b [H _]; change (equal_calls [Less]) with 0 in H;
        change (equal_calls [Equal]) with 1 in H; lia).
  repeat split.
  - apply (Hl _ 1). rewrite Z.mul_1_r.
    apply boundless_count; solve [count_side].
  - apply (He _ 1). rewrite Z.mul_1_r.
    apply boundless_count; solve [count_side].
  - apply (Hl _ 2). apply doubletapped_count; solve [count_side].
  - apply (He _ 2). apply doubletapped_count; solve [count_side].
  - apply (Hl _ 1). rewrite Z.mul_1_r.
    apply monobound_count; solve [count_side].
  - apply (He _ 1). rewrite Z.mul_1_r.
    apply monobound_count; solve [count_side].
  - apply (Hl _ 0). rewrite Z.mul_0_r, Z.add_0_r.
    apply tripletapped_count; solve [count_side].
  - apply (He _ 0). rewrite Z.mul_0_r, Z.add_0_r.
    apply tripletapped_count; solve [count_side].
Qed.

Section LinearCounts.

Variable c : trace -> Z.
Hypothesis c_nil : c [] = 0.
Hypothesis c_app : forall t1 t2, c (t1 ++ t2) = c t1 + c t2.
Hypothesis c_deref : forall j, c [Deref j] = 0.
Hypothesis c_less : 0 <= c [Less].
Hypothesis c_equal : 0 <= c [Equal].

Context {T : Type}.
Variable NDEBUG : bool.
Variable array : list T.
Variable less_than : T -> bool.
Variable equal_to : T -> bool.
Variable fuel : nat.

Lemma linear_loop_count (k : Z) :
  -1 <= k ->
  bounded c (loop fuel (linear_step T array equal_to) k)
    (fun _ => True) (c [Equal] * (k + 1)).
Proof.
  intros Hk.
  eapply (bounded_loop c) with
    (Inv := fun s => -1 <= s) (mu := fun s => c [Equal] * (s + 1));
    try solve [count_side].
  clear k Hk. intros k Hk. unfold linear_step, begin_.
  destruct (Z.geb_spec k 0) as [Hge | Hlt].
  - exists (c [Equal]). split; [nia|].
    count_seq c 0 (c [Equal]);
      [rewrite <- (c_deref k); apply bounded_deref|].
    intros x Hx. count_seq c (c [Equal]) 0; [apply bounded_call_equal|].
    intros b ->. destruct (equal_to x); apply bounded_ret; auto.
    split; [lia | nia].
  - exists 0. split; [nia|]. apply bounded_ret; auto.
Qed.

Lemma breaking_loop_count (k : Z) :
  0 <= k ->
  bounded c (loop fuel (breaking_step T array less_than) k)
    (fun _ => True) (c [Less] * k).
Proof.
  intros Hk.
  eapply (bounded_loop c) with
    (Inv := fun s => 0 <= s) (mu := fun s => c [Less] * s);
    try solve [count_side].
  clear k Hk. intros k Hk. unfold breaking_step, begin_.
  destruct (Z.gtb_spec k 0) as [Hgt | Hle].
  - exists (c [Less]). split; [nia|].
    count_seq c 0 (c [Less]);
      [rewrite <- (c_deref k); apply bounded_deref|].
    intros x Hx. count_seq c (c [Less]) 0; [apply bounded_call_less|].
    intros b ->. destruct (less_than x); apply bounded_ret; auto.
    split; [lia | nia].
  - exists 0. split; [nia|]. apply bounded_ret; auto.
Qed.

Lemma linear_count :
  bounded c (linear_search_base NDEBUG array equal_to fuel)
    (fun _ => True) (c [Equal] * size array).
Proof.
  assert (Hn : 0 <= size array) by (unfold size; lia).
  unfold linear_search_base, end_.
  destruct (begin_ =? size array).
  - split; [cbn; rewrite c_nil; nia | intros a _; exact I].
  - count_seq c 0 (c [Equal] * size array); [apply bounded_assert; auto |].
    intros _ _.
    eapply (bounded_weaken c);
      [eapply linear_loop_count; lia | nia | auto].
Qed.

Lemma breaking_count :
  bounded c (breaking_linear_search_base NDEBUG array less_than equal_to fuel)
    (fun _ => True) (c [Less] * size array + c [Equal]).
Proof.
  assert (Hn : 0 <= size array) by (unfold size; lia).
  unfold breaking_linear_search_base, begin_, end_.
  destruct (Z.eqb_spec 0 (size array)) as [Hz | Hnz].
  - split; [cbn; rewrite c_nil; nia | intros a _; exact I].
  - count_seq c 0 (c [Less] * size array + c [Equal]);
      [apply bounded_assert; auto |].
    intros _ _.
    count_seq c (c [Less] * (size array - 1)) (c [Equal]);
      [eapply breaking_loop_count; lia | | nia ..].
    intros k _.
    count_seq c 0 (c [Equal]);
      [rewrite <- (c_deref k); apply bounded_deref|].
    intros x _. count_seq c (c [Equal]) 0; [apply bounded_call_equal|].
    intros b _. apply bounded_ret; auto.
Qed.

End LinearCounts.

(** X10.  Whatever the range, the predicates, the build and the fuel, the
    linear search calls [equal_to] at most [size] times; the breaking linear
    search calls [less_than] at most [size] times and [equal_to] at most
    once. *)
Theorem linear_searches_comparison_counts :
  forall (T : Type) (NDEBUG : bool) (array : list T)
         (less_than equal_to : T -> bool) (fuel : nat),
    let linear := linear_search_base NDEBUG array equal_to fuel in
    let breaking :=
      breaking_linear_search_base NDEBUG array less_than equal_to fuel in
    equal_calls (accesses linear) <= size array /\
    less_calls (accesses linear) <= 0 /\
    less_calls (accesses breaking) <= size array /\
    equal_calls (accesses breaking) <= 1.
Proof.
  intros T NDEBUG array less_than equal_to fuel. cbv zeta.
  split; [|split; [|split]].
  - destruct (linear_count equal_calls) with (NDEBUG := NDEBUG)
      (array := array) (equal_to := equal_to) (fuel := fuel) as [H _];
      try solve [count_side]; try (cbn [less_calls equal_calls] in H; lia).
  - destruct (linear_count less_calls) with (NDEBUG := NDEBUG)
      (array := array) (equal_to := equal_to) (fuel := fuel) as [H _];
      try solve [count_side]; try (cbn [less_calls equal_calls] in H; lia).
  - destruct (breaking_count less_calls) with (NDEBUG := NDEBUG)
      (array := array) (less_than := less_than) (equal_to := equal_to)
      (fuel := fuel) as [H _]; try solve [count_side];
      try (cbn [less_calls equal_calls] in H; lia).
  - destruct (breaking_count equal_calls) with (NDEBUG := NDEBUG)
      (array := array) (less_than := less_than) (equal_to := equal_to)
      (fuel := fuel) as [H _]; try solve [count_side];
      try (cbn [less_calls equal_calls] in H; lia).
Qed.

(** ** tripletapped_binary_search: the tail loop that never runs *)

(** X11.  The tripletapped binary search returns [end] on every range, for
    every pair of predicates: it narrows the window and then tests no
    candidate. *)
Theorem tripletapped_never_finds :
  forall (T : Type) (NDEBUG : bool) (array : list T)
         (less_than equal_to : T -> bool) (fuel : nat),
    (length array + 3 < fuel)%nat ->
    returns (size array)
      (tripletapped_binary_search_base NDEBUG array less_than equal_to fuel)
      (fun it => it = end_ array).
Proof.
  intros T NDEBUG array less_than equal_to fuel Hfuel.
  destruct array as [|x rest].
  - apply returns_ret. reflexivity.
  - apply tripletapped_always_end; unfold size; simpl length in *; lia.
Qed.

Lemma tripletapped_never_finds_witness :
  (length odds + 3 < 9)%nat /\
  returns (size odds)
    (tripletapped_binary_search_base false odds (Z.ltb 5) (Z.eqb 5) 9)
    (fun it => it = end_ odds).
Proof.
  split; [simpl; lia|].
  apply (tripletapped_never_finds Z false odds (Z.ltb 5) (Z.eqb 5) 9).
  simpl; lia.
Defined.

(** ** monobound_interpolated_search: the keyed and default forms *)


(** ** adaptive_binary_search: the two modes and the anchor *)

(** X13.  Anchored mode.  On a sorted range of more than 64 integers, with a
    balance below 32 and an anchor [state.i] anywhere inside the range, the
    keyed adaptive search at the natural [<] and [==] answers the lookup
    and hands the state record back unchanged. *)
Theorem adaptive_anchored_search_answers :
  forall (NDEBUG : bool) (array : list Z) (array_size key : Z)
         (state : adaptive_binary_search_state) (fuel : nat),
    is_sorted array = true ->
    64 < size array ->
    balance state < 32 ->
    0 <= i state < size array ->
    i state < 2 ^ 63 ->
    (length array < fuel)%nat ->
    returns (size array)
      (adaptive_binary_search NDEBUG array array_size Z.ltb Z.eqb key state fuel)
      (fun r => answers array key (fst r) /\ snd r = state).
Proof.
  intros NDEBUG array array_size key state fuel Hs Hsize Hbal Hi Hi63 Hfuel.
  apply (adaptive_anchored_answers NDEBUG array array_size key state fuel);
    try assumption.
  unfold size. lia.
Qed.

Lemma adaptive_anchored_search_answers_witness :
  is_sorted (iota 100) = true /\
  64 < size (iota 100) /\
  balance {| i := 50; balance := 3 |} < 32 /\
  0 <= i {| i := 50; balance := 3 |} < size (iota 100) /\
  i {| i := 50; balance := 3 |} < 2 ^ 63 /\
  (length (iota 100) < 101)%nat /\
  returns (size (iota 100))
    (adaptive_binary_search false (iota 100) 0 Z.ltb Z.eqb 7
       {| i := 50; balance := 3 |} 101)
    (fun r => answers (iota 100) 7 (fst r) /\ snd r = {| i := 50; balance := 3 |}).
Proof.
  split; [vm_compute; reflexivity|].
  split; [vm_compute; reflexivity|].
  split; [vm_compute; reflexivity|].
  split; [vm_compute; split; [discriminate | reflexivity]|].
  split; [vm_compute; reflexivity|].
  split; [vm_compute; lia|].
  apply (adaptive_anchored_search_answers false (iota 100) 0 7
           {| i := 50; balance := 3 |} 101);
    [vm_compute; reflexivity | vm_compute; reflexivity | vm_compute; reflexivity
    | vm_compute; split; [discriminate | reflexivity] | vm_compute; reflexivity
    | vm_compute; lia].
Defined.

(** X14.  Anchored mode with a stale anchor.  When the anchored gallop is
    selected and [state.i] is at or past the end of the range (a record kept
    from a longer range), the first thing the search does is dereference
    [begin + state.i]: an access past the range, in debug and release
    builds. *)
Theorem adaptive_stale_anchor_reads_past_end :
  forall (T K : Type) (NDEBUG : bool) (array : list T) (array_size : Z)
         (less_than equal_to : T -> bool) (key : K)
         (state : adaptive_binary_search_state) (fuel : nat),
    64 < size array ->
    balance state < 32 ->
    size array <= i state < 2 ^ 63 ->
    adaptive_binary_search_base NDEBUG array array_size less_than equal_to
      key state fuel
    = (Fault (OutOfRange (i state)), [Deref (i state)]).
Proof.
  intros T K NDEBUG array array_size less_than equal_to key state fuel
    Hsize Hbal Hi.
  unfold adaptive_binary_search_base, adaptive_select, begin_, end_.
  destruct (Z.eqb_spec 0 (size array)) as [Hz | _]; [lia|].
  replace (0 <? size array) with true by (symmetry; apply Z.ltb_lt; lia).
  rewrite assert_holds, bind_ret_l.
  replace (balance state <? 32) with true by (symmetry; apply Z.ltb_lt; lia).
  replace (size array >? 64) with true by (symmetry; apply Z.gtb_lt; lia).
  cbn [andb]. unfold to_ptrdiff.
  replace (i state <? 2 ^ 63) with true by (symmetry; apply Z.ltb_lt; lia).
  unfold deref.
  replace (i state <? size array) with false by (symmetry; apply Z.ltb_ge; lia).
  rewrite andb_false_r. reflexivity.
Qed.

Lemma adaptive_stale_anchor_reads_past_end_witness :
  64 < size (iota 100) /\
  balance {| i := 100; balance := 0 |} < 32 /\
  size (iota 100) <= i {| i := 100; balance := 0 |} < 2 ^ 63 /\
  adaptive_binary_search_base false (iota 100) 100 (Z.ltb 7) (Z.eqb 7)
    7 {| i := 100; balance := 0 |} 200
  = (Fault (OutOfRange 100), [Deref 100]).
Proof.
  split; [vm_compute; reflexivity|].
  split; [vm_compute; reflexivity|].
  split; [vm_compute; split; [discriminate | reflexivity]|].
  apply (adaptive_stale_anchor_reads_past_end Z Z false (iota 100) 100
           (Z.ltb 7) (Z.eqb 7) 7 {| i := 100; balance := 0 |} 200);
    [vm_compute; reflexivity | vm_compute; reflexivity
    | vm_compute; split; [discriminate | reflexivity]].
Defined.

Lemma adaptive_tap_highest {T} (array : list T) (equal_to : T -> bool)
  (fuel : nat) (top : Z) :
  0 <= top <= size array -> (Z.to_nat top < fuel)%nat ->
  returns (size array) (loop fuel (adaptive_tap_step T array equal_to 0) top)
    (highest_match_below array equal_to top).
Proof.
  intros Htop Hfuel.
  apply returns_loop with
    (Inv := fun k => 0 <= k <= top /\
                     forall j y, k <= j < top -> at_offset array j y ->
                                 equal_to y = false)
    (mu := fun k => Z.to_nat k); [| split; [lia | intros; lia] | lia].
  intros k (Hk & Hnone). unfold adaptive_tap_step.
  destruct (Z.eqb_spec k 0) as [-> | Hk0]; cbn [negb].
  - apply returns_ret. right. split; [reflexivity|].
    intros j y Hj Hy. apply (Hnone j y); [|exact Hy].
    apply at_offset_bound in Hy. lia.
  - rewrite Z.add_0_l.
    exec_deref x Hx; [lia|]. exec_equal.
    destruct (equal_to x) eqn:Heq; apply returns_ret.
    + left. exists x. split; [lia|]. split; [exact Hx|]. split; [exact Heq|].
      intros j y Hj Hy. apply (Hnone j y); [lia | exact Hy].
    + split; [split; [lia|] | lia].
      intros j y Hj Hy. destruct (Z.eq_dec j (k - 1)) as [-> | Hne].
      * rewrite (at_offset_unique _ _ _ _ Hy Hx). exact Heq.
      * apply (Hnone j y); [lia | exact Hy].
Qed.

(** X15.  Fallback mode.  When the fallback is selected (balance of 32 or
    more, or a range of at most 64 elements) on a non-empty range, and the
    name [array_size] stands for a length within the range, the adaptive
    search scans [array_size - 1, ..., 0] with [equal_to] alone: it returns
    the highest offset below [array_size] whose element satisfies
    [equal_to], or [end], and leaves the state record unchanged.  No
    ordering of the range is used. *)
Theorem adaptive_fallback_scans :
  forall (T K : Type) (NDEBUG : bool) (array : list T) (array_size : Z)
         (less_than equal_to : T -> bool) (key : K)
         (state : adaptive_binary_search_state) (fuel : nat),
    array <> [] ->
    adaptive_select array state = FullRangeFallback ->
    0 <= array_size <= size array ->
    (Z.to_nat array_size < fuel)%nat ->
    returns (size array)
      (adaptive_binary_search_base NDEBUG array array_size less_than equal_to
         key state fuel)
      (fun r => highest_match_below array equal_to array_size (fst r) /\
                snd r = state).
Proof.
  intros T K NDEBUG array array_size less_than equal_to key state fuel
    Hne Hsel Hsz Hfuel.
  assert (Hn : 0 < size array)
    by (unfold size; destruct array; [congruence | simpl; lia]).
  unfold adaptive_binary_search_base. rewrite Hsel. unfold begin_, end_.
  destruct (Z.eqb_spec 0 (size array)) as [Hz | _]; [lia|].
  exec_assert; [apply Z.ltb_lt; lia|].
  rewrite bind_ret_l.
  eapply returns_bind; [apply adaptive_tap_highest; assumption|].
  intros it Hit. apply returns_ret. split; [exact Hit | reflexivity].
Qed.

Lemma adaptive_fallback_scans_witness :
  [2; 2; 2; 5] <> [] /\
  adaptive_select [2; 2; 2; 5] zero_state = FullRangeFallback /\
  0 <= 4 <= size [2; 2; 2; 5] /\
  (Z.to_nat 4 < 5)%nat /\
  returns (size [2; 2; 2; 5])
    (adaptive_binary_search_base false [2; 2; 2; 5] 4 (Z.ltb 2) (Z.eqb 2)
       2 zero_state 5)
    (fun r => highest_match_below [2; 2; 2; 5] (Z.eqb 2) 4 (fst r) /\
              snd r = zero_state).
Proof.
  split; [discriminate|]. split; [reflexivity|].
  split; [vm_compute; split; discriminate|]. split; [simpl; lia|].
  apply (adaptive_fallback_scans Z Z false [2; 2; 2; 5] 4 (Z.ltb 2) (Z.eqb 2)
           2 zero_state 5);
    [discriminate | reflexivity | vm_compute; split; discriminate | simpl; lia].
Defined.

(** ** Default forms against keyed forms *)

Lemma loop_ext {S R} (step1 step2 : S -> M (S + R)) :
  (forall s, step1 s = step2 s) ->
  forall fuel s, loop fuel step1 s = loop fuel step2 s.
Proof.
  intros Hstep fuel. induction fuel as [|fuel IH]; intros s; [reflexivity|].
  cbn [loop]. rewrite Hstep. destruct (step2 s) as [[[s'|r]|f] t]; cbn.
  - rewrite IH. reflexivity.
  - reflexivity.
  - reflexivity.
Qed.

Lemma linear_step_ext {T} (array : list T) (p q : T -> bool) :
  (forall x, p x = q x) ->
  forall k, linear_step T array p k = linear_step T array q k.
Proof.
  intros Hpq k. unfold linear_step.
  destruct (k >=? begin_); [|reflexivity].
  destruct (deref array k) as [[x|f] t]; [|reflexivity].
  unfold call_equal. cbn. rewrite (Hpq x). reflexivity.
Qed.

(** X16.  For the linear, standard, monobound, tripletapped,
    monobound-quaternary, interpolated and adaptive searches, the default
    form on integers is the keyed form taken at the natural [<] and [==]:
    same result and same trace, on every range, key, build and fuel. *)
Theorem default_forms_agree_with_keyed :
  forall (NDEBUG : bool) (array : list Z) (key : Z) (fuel : nat)
         (interpolate : Z -> Z -> Z -> Z -> Z) (array_size : Z)
         (state : adaptive_binary_search_state),
    linear_search_default NDEBUG array key fuel
    = linear_search NDEBUG array Z.eqb key fuel /\
    standard_binary_search_default NDEBUG array key fuel
    = standard_binary_search NDEBUG array Z.ltb Z.eqb key fuel /\
    monobound_binary_search_default NDEBUG array key fuel
    = monobound_binary_search NDEBUG array Z.ltb Z.eqb key fuel /\
    tripletapped_binary_search_default NDEBUG array key fuel
    = tripletapped_binary_search NDEBUG array Z.ltb Z.eqb key fuel /\
    monobound_quaternary_search_default NDEBUG array key fuel
    = monobound_quaternary_search NDEBUG array Z.ltb Z.eqb key fuel /\
    monobound_interpolated_search_default NDEBUG array key interpolate fuel
    = monobound_interpolated_search NDEBUG array interpolate Z.ltb Z.eqb key fuel /\
    adaptive_binary_search_default NDEBUG array key array_size state fuel
    = adaptive_binary_search NDEBUG array array_size Z.ltb Z.eqb key state fuel.
Proof.
  intros NDEBUG array key fuel interpolate array_size state.
  split; [|repeat split; reflexivity].
  unfold linear_search_default, linear_search, linear_search_base.
  destruct (begin_ =? end_ array); [reflexivity|].
  f_equal. rewrite (loop_ext _ _ (linear_step_ext array _ _
                                    (fun x => Z.eqb_sym x key))).
  reflexivity.
Qed.

(** ** The default form of the breaking linear search *)




(** ** monobound_binary_search: the probe that ignores [low] *)

Lemma monobound_loop_upper (array : list Z) (key pivot : Z) (fuel : nat) :
  is_sorted array = true ->
  at_offset array (Z.quot (size array) 2) pivot -> pivot <= key ->
  (Z.to_nat (size array) < fuel)%nat ->
  returns (size array)
    (loop fuel (monobound_step Z array (fun right => key <? right))
       (0, size array))
    (fun s => fst s = size array - 1).
Proof.
  intros Hs Hp Hle Hfuel.
  pose proof (at_offset_bound _ _ _ Hp) as Hn.
  apply returns_loop with
    (Inv := fun s => fst s + snd s = size array /\ 1 <= snd s <= size array)
    (mu := fun s => Z.to_nat (snd s)); cbn [fst snd]; try lia.
  intros [low high] (Hsum & Hhigh); cbn [fst snd] in *.
  unfold monobound_step, begin_. rewrite Z.sub_0_r, !Z.add_0_l.
  destruct (Z.gtb_spec high 1) as [Hgt | Hle1].
  - exec_deref x Hx; [divlia|]. exec_less.
    pose proof (sorted_at_offset array (Z.quot high 2) (Z.quot (size array) 2)
                  x pivot Hs ltac:(divlia) Hx Hp) as Hxp.
    replace (key <? x) with false by (symmetry; apply Z.ltb_ge; lia).
    cbn [negb]. apply returns_ret. cbn [fst snd]. divlia.
  - apply returns_ret. cbn [fst]. lia.
Qed.

(** X18.  On a sorted range of integers, for every key at or above the
    element in the middle (offset [size / 2]), the keyed monobound binary
    search ends on the last element whatever the key: it returns the last
    offset when the last element equals the key and [end] otherwise, so a
    key of the upper half that is not also the last element is reported
    absent. *)
Theorem monobound_binary_search_upper_half :
  forall (NDEBUG : bool) (array : list Z) (key pivot last : Z) (fuel : nat),
    is_sorted array = true ->
    at_offset array (Z.quot (size array) 2) pivot ->
    pivot <= key ->
    at_offset array (size array - 1) last ->
    (length array < fuel)%nat ->
    returns (size array)
      (monobound_binary_search NDEBUG array Z.ltb Z.eqb key fuel)
      (fun it => it = if key =? last then size array - 1 else end_ array).
Proof.
  intros NDEBUG array key pivot last fuel Hs Hp Hle Hlast Hfuel.
  pose proof (at_offset_bound _ _ _ Hp) as Hn.
  unfold monobound_binary_search, monobound_binary_search_base, begin_, end_.
  destruct (Z.eqb_spec 0 (size array)) as [Hz | _]; [lia|].
  exec_assert; [apply Z.ltb_lt; lia|].
  eapply returns_bind;
    [apply (monobound_loop_upper array key pivot fuel Hs Hp Hle);
     unfold size; lia|].
  intros [low high] Hlow; cbn [fst] in Hlow. subst low.
  exec_deref x Hx; [lia|]. exec_equal.
  apply returns_ret.
  rewrite (at_offset_unique _ _ _ _ Hx Hlast). reflexivity.
Qed.

Lemma monobound_binary_search_upper_half_witness :
  is_sorted odds = true /\
  at_offset odds (Z.quot (size odds) 2) 5 /\
  5 <= 7 /\
  at_offset odds (size odds - 1) 9 /\
  (length odds < 6)%nat /\
  returns (size odds) (monobound_binary_search false odds Z.ltb Z.eqb 7 6)
    (fun it => it = if 7 =? 9 then size odds - 1 else end_ odds).
Proof.
  split; [reflexivity|].
  split; [split; [vm_compute; discriminate | reflexivity]|].
  split; [lia|].
  split; [split; [vm_compute; discriminate | reflexivity]|].
  split; [simpl; lia|].
  apply (monobound_binary_search_upper_half false odds 7 5 9 6);
    [ reflexivity
    | split; [vm_compute; discriminate | reflexivity]
    | lia
    | split; [vm_compute; discriminate | reflexivity]
    | simpl; lia ].
Defined.

(** ** The searches that answer correctly agree with one another *)

Lemma answers_end_iff (array : list Z) (key it : Z) :
  answers array key it -> (it = end_ array <-> ~ In key array).
Proof.
  intros [Hin Hout]. split.
  - intros -> Hk. specialize (Hin Hk). apply at_offset_bound in Hin.
    unfold end_ in Hin. lia.
  - exact Hout.
Qed.

Lemma highest_match_end_iff (array : list Z) (key it : Z) :
  highest_match array (Z.eqb key) it -> (it = end_ array <-> ~ In key array).
Proof.
  intros [[x (Hx & Heq & _)] | [-> Hnone]]; split.
  - intros ->. apply at_offset_bound in Hx. unfold end_ in Hx. lia.
  - intros Hnot. exfalso. apply Hnot. apply Z.eqb_eq in Heq. subst x.
    eapply at_offset_In; eauto.
  - intros _ Hk. apply In_at_offset in Hk. destruct Hk as [j Hj].
    specialize (Hnone j key Hj). rewrite Z.eqb_refl in Hnone. discriminate.
  - reflexivity.
Qed.

(** X19.  On a non-empty sorted range of integers the keyed linear, breaking
    linear, boundless, doubletapped and monobound-quaternary searches, taken
    at the natural [<] and [==], all return, and each returns [end] exactly
    when the key does not occur in the range: these five agree on
    existence. *)
Theorem sound_variants_agree_on_existence :
  forall (NDEBUG : bool) (array : list Z) (key : Z) (fuel : nat),
    is_sorted array = true ->
    array <> [] ->
    (length array + 3 < fuel)%nat ->
    let absent_iff_end (m : M Z) :=
      returns (size array) m (fun it => it = end_ array <-> ~ In key array) in
    absent_iff_end (linear_search NDEBUG array Z.eqb key fuel) /\
    absent_iff_end (breaking_linear_search NDEBUG array Z.ltb Z.eqb key fuel) /\
    absent_iff_end (boundless_binary_search NDEBUG array Z.ltb Z.eqb key fuel) /\
    absent_iff_end (doubletapped_binary_search NDEBUG array Z.ltb Z.eqb key fuel) /\
    absent_iff_end (monobound_quaternary_search NDEBUG array Z.ltb Z.eqb key fuel).
Proof.
  intros NDEBUG array key fuel Hs Hne Hfuel absent_iff_end.
  unfold absent_iff_end. split; [|split; [|split; [|split]]].
  - eapply returns_weaken;
      [apply (linear_search_highest_array Z NDEBUG array (Z.eqb key) fuel); lia|].
    apply highest_match_end_iff.
  - eapply returns_weaken;
      [apply (breaking_linear_highest_array NDEBUG array key fuel Hs); lia|].
    apply highest_match_end_iff.
  - eapply returns_weaken;
      [apply (boundless_answers_array NDEBUG array key fuel Hs); lia|].
    apply answers_end_iff.
  - eapply returns_weaken;
      [apply (doubletapped_answers_array NDEBUG array key fuel Hs); auto; lia|].
    apply answers_end_iff.
  - eapply returns_weaken;
      [apply (quaternary_answers_array NDEBUG array key fuel Hs); lia|].
    apply answers_end_iff.
Qed.

Lemma sound_variants_agree_on_existence_witness :
  is_sorted odds = true /\
  odds <> [] /\
  (length odds + 3 < 9)%nat /\
  let absent_iff_end (m : M Z) :=
    returns (size odds) m (fun it => it = end_ odds <-> ~ In 4 odds) in
  absent_iff_end (linear_search false odds Z.eqb 4 9) /\
  absent_iff_end (breaking_linear_search false odds Z.ltb Z.eqb 4 9) /\
  absent_iff_end (boundless_binary_search false odds Z.ltb Z.eqb 4 9) /\
  absent_iff_end (doubletapped_binary_search false odds Z.ltb Z.eqb 4 9) /\
  absent_iff_end (monobound_quaternary_search false odds Z.ltb Z.eqb 4 9).
Proof.
  split; [reflexivity|]. split; [discriminate|]. split; [simpl; lia|].
  apply (sound_variants_agree_on_existence false odds 4 9);
    [reflexivity | discriminate | simpl; lia].
Defined.
